(** * The router's segment trees: [Tree], [UrlSegment], [RouteSegment]

    A shallow embedding of [modules/@angular/router/src/segments.ts] and of
    the facade helpers it calls, followed by the properties of the tree
    lookups, of the two segment equalities and of [link]. *)

From Stdlib Require Import String Ascii List Bool Arith ZArith Lia Permutation.
From Stdlib Require DecimalString.
Import ListNotations.
Local Open Scope string_scope.
Local Open Scope list_scope.

(* ================================================================== *)
(** ** Data model *)
(* ================================================================== *)

(** A string map ([{[key: string]: string}]): the own properties of a
    JavaScript object in insertion order.  An object never holds a key
    twice; [StringMap_wf] states it. *)
Definition StringMap := list (string * string).

Definition StringMap_wf (m : StringMap) : Prop := NoDup (map fst m).

(** Objects are compared by reference with [===]; every segment object
    carries its reference ([us_ref], [rs_ref]).  A nullable field is an
    [option], [None] standing for [null]. *)
Record UrlSegment := mkUrlSegment {
  us_ref : nat;
  segment : string;
  us_parameters : option StringMap;
  us_outlet : option string
}.

Record RouteSegment := mkRouteSegment {
  rs_ref : nat;
  urlSegments : list UrlSegment;
  rs_parameters : option StringMap;
  rs_outlet : option string;
  _type : option nat;
  _componentFactory : option nat
}.

#[local] Unset Elimination Schemes.
Inductive TreeNode (T : Type) : Type :=
  mkTreeNode { value : T; children : list (TreeNode T) }.
#[local] Set Elimination Schemes.
Arguments mkTreeNode {T} value children.
Arguments value {T} t.
Arguments children {T} t.

(** [tree_ref] is the reference of the tree object itself. *)
Record Tree (T : Type) := mkTree { tree_ref : nat; _root : TreeNode T }.
Arguments mkTree {T} tree_ref _root.
Arguments tree_ref {T} t.
Arguments _root {T} t.

Definition UrlTree := Tree UrlSegment.
Definition RouteTree := Tree RouteSegment.

Definition rootNode {T} (tree : Tree T) : TreeNode T := _root tree.

(** What a value of type [any] is at run time, as far as [instanceof] and
    [===] can tell. *)
Inductive Value :=
| VRouteSegment (r : RouteSegment)
| VUrlSegment (u : UrlSegment)
| VOther (x : nat).

(** The implicit upcast of a [T] to [any]. *)
Class Any (T : Type) := toAny : T -> Value.
#[export] Instance Any_RouteSegment : Any RouteSegment := VRouteSegment.
#[export] Instance Any_UrlSegment : Any UrlSegment := VUrlSegment.
#[export] Instance Any_nat : Any nat := VOther.

(* ================================================================== *)
(** ** Run-time effects: exceptions and console output *)
(* ================================================================== *)

Inductive JsError := TypeError.

Inductive result (A : Type) : Type :=
| Ok (a : A)
| Throw (e : JsError).
Arguments Ok {A} a.
Arguments Throw {A} e.

(** One call of [console.log(label, obj)]. *)
Inductive LogLine := Log (label : string) (obj : option UrlSegment).

(** A computation writes lines to the console and then returns or
    throws. *)
Definition M (A : Type) : Type := list LogLine * result A.

Definition ret {A} (a : A) : M A := ([], Ok a).
Definition throw {A} (e : JsError) : M A := ([], Throw e).
Definition console_log (label : string) (obj : option UrlSegment) : M unit :=
  ([Log label obj], Ok tt).

Definition bind {A B} (m : M A) (f : A -> M B) : M B :=
  match m with
  | (out, Ok a) => let (out', r) := f a in (out ++ out', r)
  | (out, Throw e) => (out, Throw e)
  end.

Declare Scope js_scope.
Delimit Scope js_scope with js.
Notation "x <- m ;; k" := (bind m (fun x => k))
  (at level 61, m at next level, right associativity) : js_scope.
Notation "m ;;; k" := (bind m (fun _ => k))
  (at level 61, right associativity) : js_scope.
Local Open Scope js_scope.

(** Modelled from the spec: [isBlank] and [isPresent] of [facade/lang], which
    is not among the sources: the tests for an absent ([null]) value. *)
Definition isBlank {A} (o : option A) : bool :=
  match o with None => true | Some _ => false end.
Definition isPresent {A} (o : option A) : bool := negb (isBlank o).

(** Reading the property [f] of [o]; on [null] this is a [TypeError]. *)
Definition field {A B} (o : option A) (f : A -> B) : M B :=
  match o with
  | Some x => ret (f x)
  | None => throw TypeError
  end.

(** [===] and [==] on nullable strings and tokens. *)
Definition string_opt_eqb (a b : option string) : bool :=
  match a, b with
  | Some x, Some y => String.eqb x y
  | None, None => true
  | _, _ => false
  end.

Definition nat_opt_eqb (a b : option nat) : bool :=
  match a, b with
  | Some x, Some y => Nat.eqb x y
  | None, None => true
  | _, _ => false
  end.

(** [a === b] on values of type [any]: objects by reference, other values
    by what they are. *)
Definition strict_equals (a b : Value) : bool :=
  match a, b with
  | VRouteSegment r1, VRouteSegment r2 => Nat.eqb (rs_ref r1) (rs_ref r2)
  | VUrlSegment u1, VUrlSegment u2 => Nat.eqb (us_ref u1) (us_ref u2)
  | VOther x, VOther y => Nat.eqb x y
  | _, _ => false
  end.

(* ================================================================== *)
(** ** [facade/collection]: [StringMapWrapper] *)
(* ================================================================== *)

(** [Object.keys(m)] *)
Definition StringMap_keys (m : StringMap) : list string := map fst m.

(** [m[key]]; [None] is [undefined]. *)
Fixpoint StringMap_get (m : StringMap) (key : string) : option string :=
  match m with
  | [] => None
  | (k, v) :: rest => if String.eqb k key then Some v else StringMap_get rest key
  end.

(** Modelled from the spec: [StringMapWrapper.equals] of [facade/collection],
    which is not among the sources.  The spec asks for "order-independent
    key/value equality": the maps have as many keys, and every key of the
    first holds the same value in the second.  The keys of an absent map
    cannot be listed: as for every property read on [null], the result is a
    [TypeError]. *)
Definition StringMapWrapper_equals (m1 m2 : option StringMap) : M bool :=
  match m1, m2 with
  | Some m1, Some m2 =>
      let k1 := StringMap_keys m1 in
      let k2 := StringMap_keys m2 in
      if negb (Nat.eqb (length k1) (length k2)) then ret false
      else ret (forallb (fun key =>
                  string_opt_eqb (StringMap_get m1 key) (StringMap_get m2 key)) k1)
  | _, _ => throw TypeError
  end.

(* ================================================================== *)
(** ** [segments.ts]: the segment equalities *)
(* ================================================================== *)

Definition equalSegments (a b : option RouteSegment) : M bool :=
  if isBlank a && negb (isBlank b) then ret false
  else if negb (isBlank a) && isBlank b then ret false
  else
    ta <- field a _type ;;
    tb <- field b _type ;;
    if negb (nat_opt_eqb ta tb) then ret false
    else
      oa <- field a rs_outlet ;;
      ob <- field b rs_outlet ;;
      if negb (string_opt_eqb oa ob) then ret false
      else
        pa <- field a rs_parameters ;;
        pb <- field b rs_parameters ;;
        StringMapWrapper_equals pa pb.

Definition equalUrlSegments (a b : option UrlSegment) : M bool :=
  if isBlank a && negb (isBlank b) then ret false
  else if negb (isBlank a) && isBlank b then ret false
  else
    sa <- field a segment ;;
    sb <- field b segment ;;
    if negb (String.eqb sa sb) then ret false
    else
      oa <- field a us_outlet ;;
      ob <- field b us_outlet ;;
      if negb (string_opt_eqb oa ob) then ret false
      else
        pa <- field a us_parameters ;;
        pb <- field b us_parameters ;;
        (if isBlank pa then console_log "a" a else ret tt) ;;;
        (if isBlank pb then console_log "b" b else ret tt) ;;;
        StringMapWrapper_equals pa pb.

(* ================================================================== *)
(** ** [segments.ts]: the tree *)
(* ================================================================== *)

(** [equalSegments(<any>a, <any>b)] for [a] an instance of [RouteSegment]
    and [b] any value of the tree: a value that is no [RouteSegment] has
    no [_type], and [undefined] differs from the [_type] of [a]. *)
Definition equalSegments_any (a : RouteSegment) (b : Value) : M bool :=
  match b with
  | VRouteSegment rb => equalSegments (Some a) (Some rb)
  | _ => ret false
  end.

(** Likewise [equalUrlSegments(<any>a, <any>b)]: a value that is no
    [UrlSegment] has no [segment], and [undefined] differs from a token. *)
Definition equalUrlSegments_any (a : UrlSegment) (b : Value) : M bool :=
  match b with
  | VUrlSegment ub => equalUrlSegments (Some a) (Some ub)
  | _ => ret false
  end.

Definition _equalValues (a b : Value) : M bool :=
  match a with
  | VRouteSegment ra => equalSegments_any ra b
  | VUrlSegment ua => equalUrlSegments_any ua b
  | _ => ret (strict_equals a b)
  end.

Section TreeOps.
Context {T : Type} `{Any T}.

Fixpoint _findNode (expected : T) (c : TreeNode T) : M (option (TreeNode T)) :=
  match c with
  | mkTreeNode v cs =>
      hit <- match toAny expected with
             | VRouteSegment r => equalSegments_any r (toAny v)
             | _ => ret false
             end ;;
      if hit then ret (Some c)
      else if strict_equals (toAny expected) (toAny v) then ret (Some c)
      else
        (fix loop (l : list (TreeNode T)) : M (option (TreeNode T)) :=
           match l with
           | [] => ret None
           | cc :: rest =>
               r <- _findNode expected cc ;;
               if isPresent r then ret r else loop rest
           end) cs
  end.

Fixpoint _findPath (expected : T) (c : TreeNode T) (collected : list (TreeNode T))
  : M (option (list (TreeNode T))) :=
  match c with
  | mkTreeNode v cs =>
      let collected := collected ++ [c] in
      hit <- _equalValues (toAny expected) (toAny v) ;;
      if hit then ret (Some collected)
      else
        (fix loop (l : list (TreeNode T)) : M (option (list (TreeNode T))) :=
           match l with
           | [] => ret None
           | cc :: rest =>
               r <- _findPath expected cc collected ;;
               if isPresent r then ret r else loop rest
           end) cs
  end.

(** [nodes.filter(p)] for a callback [p] that may throw or log. *)
Fixpoint filterM {A} (p : A -> M bool) (l : list A) : M (list A) :=
  match l with
  | [] => ret []
  | x :: rest =>
      keep <- p x ;;
      tl <- filterM p rest ;;
      ret (if keep then x :: tl else tl)
  end.

Fixpoint _contains (tree subtree : TreeNode T) {struct subtree} : M bool :=
  match subtree with
  | mkTreeNode sv scs =>
      same <- _equalValues (toAny (value tree)) (toAny sv) ;;
      if negb same then ret false
      else
        (fix loop (l : list (TreeNode T)) : M bool :=
           match l with
           | [] => ret true
           | subtreeNode :: rest =>
               s <- filterM (fun child =>
                      _equalValues (toAny (value child)) (toAny (value subtreeNode)))
                      (children tree) ;;
               match s with
               | [] => ret false
               | s0 :: _ =>
                   inside <- _contains s0 subtreeNode ;;
                   if negb inside then ret false else loop rest
               end
           end) scs
  end.

(** [Tree.root] *)
Definition root (t : Tree T) : T := value (_root t).

(** [Tree.pathFromRoot]: [.map] is called on whatever [_findPath]
    returned, and on [null] that is a [TypeError]. *)
Definition pathFromRoot (t : Tree T) (v : T) : M (list T) :=
  r <- _findPath v (_root t) [] ;;
  p <- field r id ;;
  ret (map value p).

(** [Tree.parent]; [None] is [null]. *)
Definition parent (t : Tree T) (v : T) : M (option T) :=
  p <- pathFromRoot t v ;;
  ret (if Nat.ltb 1 (length p) then nth_error p (length p - 2) else None).

(** [Tree.children]; [None] is [null]. *)
Definition Tree_children (t : Tree T) (v : T) : M (option (list T)) :=
  n <- _findNode v (_root t) ;;
  ret (match n with
       | Some n => Some (map value (children n))
       | None => None
       end).

(** [Tree.firstChild]; [None] is [null]. *)
Definition firstChild (t : Tree T) (v : T) : M (option T) :=
  n <- _findNode v (_root t) ;;
  ret (match n with
       | Some n => match children n with
                   | c0 :: _ => Some (value c0)
                   | [] => None
                   end
       | None => None
       end).

(** [Tree.contains] *)
Definition contains (t tree : Tree T) : M bool := _contains (_root t) (_root tree).

End TreeOps.

(* ================================================================== *)
(** ** [segments.ts]: the segment classes *)
(* ================================================================== *)

Definition _serializeParams (params : StringMap) : string :=
  fold_left (fun res kv => (res ++ ";" ++ fst kv ++ "=" ++ snd kv)%string) params "".

(** [UrlSegment.toString]; [StringMapWrapper.forEach] over an absent map
    visits nothing. *)
Definition UrlSegment_toString (u : UrlSegment) : string :=
  let outletPrefix := match us_outlet u with
                      | None => ""
                      | Some o => (o ++ ":")%string
                      end in
  (outletPrefix ++ segment u ++
     match us_parameters u with
     | Some params => _serializeParams params
     | None => ""
     end)%string.

(** What [getParam] can return: [null], [undefined], a string the map holds,
    or the member that the object inherits under the name asked for. *)
Inductive JsString := JsNull | JsUndefined | JsStr (s : string) | JsInherited (name : string).

(** The names that an object made by [{}] inherits from [Object.prototype]. *)
Definition Object_prototype : list string :=
  ["constructor"; "hasOwnProperty"; "isPrototypeOf"; "propertyIsEnumerable";
   "toLocaleString"; "toString"; "valueOf"; "__proto__";
   "__defineGetter__"; "__defineSetter__"; "__lookupGetter__"; "__lookupSetter__"].

Definition plain_object (name : string) : bool :=
  existsb (String.eqb name) Object_prototype.

(** The read [m[key]] that returns its result to the caller.  An own
    property comes first; a name the object does not hold itself is looked
    up along its prototype chain, and only a name that is nowhere gives
    [undefined].  A [StringMap] lists the own properties; [inherited] tells
    the names that the prototype chain of the object holds ([plain_object]
    for an object made by [{}]). *)
Definition StringMap_read (inherited : string -> bool) (m : StringMap) (key : string)
  : JsString :=
  match StringMap_get m key with
  | Some v => JsStr v
  | None => if inherited key then JsInherited key else JsUndefined
  end.

(** [RouteSegment.getParam]; [inherited] as for [StringMap_read], for the
    object in [parameters]. *)
Definition getParam (inherited : string -> bool) (r : RouteSegment) (param : string)
  : JsString :=
  match rs_parameters r with
  | Some params => StringMap_read inherited params param
  | None => JsNull
  end.

Definition routeSegmentComponentFactory (a : RouteSegment) : option nat :=
  _componentFactory a.

(* ================================================================== *)
(** ** [link] and the URL serializer *)
(* ================================================================== *)

(** Modelled from the spec: a navigation command of [link.ts], which is not
    among the sources: a path token, a positional value or a parameter
    object. *)
Inductive Command :=
| CString (s : string)
| CNumber (n : Z)
| CParams (m : StringMap).

(** Modelled from the spec: a positional value "is stringified". *)
Definition stringify (n : Z) : string :=
  DecimalString.NilZero.string_of_int (Z.to_int n).

(** Modelled from the spec: merging a parameter object into the matrix
    parameters of a segment ("replacing any same-named existing parameter,
    adding new ones, preserving those not mentioned"); part of [link.ts],
    which is not among the sources. *)
Fixpoint StringMap_set (m : StringMap) (key v : string) : StringMap :=
  match m with
  | [] => [(key, v)]
  | (k, old) :: rest =>
      if String.eqb k key then (k, v) :: rest else (k, old) :: StringMap_set rest key v
  end.

(** Modelled from the spec: the parameters [m1] with the object [m2]
    merged in. *)
Definition StringMap_merge (m1 m2 : StringMap) : StringMap :=
  fold_left (fun acc kv => StringMap_set acc (fst kv) (snd kv)) m2 m1.

(** Modelled from the spec: one step of the walk over the commands: the
    segment to create, the outlet it goes to and the parameter object given
    for it, if any. *)
Record Step := mkStep {
  step_outlet : option string;
  step_segment : string;
  step_params : option StringMap
}.

(** Modelled from the spec: the outlet and the token of a path command
    ([outletName:token], or a plain token on the default outlet). *)
Definition _outlet (s : string) : option string :=
  match String.index 0 ":" s with
  | Some i => Some (String.substring 0 i s)
  | None => None
  end.

(** Modelled from the spec: the token of a path command, after the outlet
    prefix if there is one. *)
Definition _segment (s : string) : string :=
  match String.index 0 ":" s with
  | Some i => String.substring (S i) (String.length s - S i) s
  | None => s
  end.

(** Modelled from the spec: the walk over the commands, left to right (step 5
    of the algorithm).  A string is a segment on its outlet, a positional
    value is stringified, and a parameter object goes to the segment created
    last; with no segment before it, it has nowhere to go and is skipped.
    [acc] holds the steps so far, the last one first. *)
Definition _walk (acc : list Step) (c : Command) : list Step :=
  match c with
  | CString s => mkStep (_outlet s) (_segment s) None :: acc
  | CNumber n => mkStep None (stringify n) None :: acc
  | CParams p =>
      match acc with
      | [] => []
      | last :: before =>
          mkStep (step_outlet last) (step_segment last)
                 (Some (match step_params last with
                        | Some q => StringMap_merge q p
                        | None => p
                        end)) :: before
      end
  end.

(** Modelled from the spec: the steps of a command list, in order. *)
Definition _steps (commands : list Command) : list Step :=
  rev (fold_left _walk commands []).

(** Modelled from the spec: the commands without the marker of their first
    token (steps 3 and 4): a leading [/] makes them absolute, a leading [./]
    or none leaves them relative to the anchor. *)
Record _NormalizedNavigationCommands := mkNormalized {
  isAbsolute : bool;
  commands : list Command
}.

(** Modelled from the spec: the first command without its marker of [n]
    characters; a command that was the marker alone is dropped. *)
Definition _dropMarker (n : nat) (s : string) (rest : list Command) : list Command :=
  let token := String.substring n (String.length s - n) s in
  if String.eqb token "" then rest else CString token :: rest.

(** Modelled from the spec: absolute or relative, by the first command. *)
Definition _normalizeCommands (cmds : list Command) : _NormalizedNavigationCommands :=
  match cmds with
  | CString s :: rest =>
      if String.prefix "/" s then mkNormalized true (_dropMarker 1 s rest)
      else if String.prefix "./" s then mkNormalized false (_dropMarker 2 s rest)
      else mkNormalized false cmds
  | _ => mkNormalized false cmds
  end.

(** Modelled from the spec: the first node of [nodes] on [outlet], with the
    nodes before and after it ("the anchor's relevant outlet child"). *)
Fixpoint _splitAtOutlet (outlet : option string) (nodes : list (TreeNode UrlSegment))
  : option (list (TreeNode UrlSegment) * TreeNode UrlSegment * list (TreeNode UrlSegment)) :=
  match nodes with
  | [] => None
  | n :: rest =>
      if string_opt_eqb (us_outlet (value n)) outlet then Some ([], n, rest)
      else match _splitAtOutlet outlet rest with
           | Some (before, hit, after) => Some (n :: before, hit, after)
           | None => None
           end
  end.

(** Modelled from the spec: applying the steps to the children of the anchor
    (steps 5 and 6).  At each level the node on the outlet of the step is
    replaced and its siblings stay as they are; with no node on that outlet a
    new branch is added after them.  Below the last step nothing is kept.
    [next] is the first unused reference; every new segment takes one. *)
Fixpoint _updateMany (steps : list Step) (nodes : list (TreeNode UrlSegment)) (next : nat)
  : list (TreeNode UrlSegment) * nat :=
  match steps with
  | [] => ([], next)
  | st :: rest =>
      match _splitAtOutlet (step_outlet st) nodes with
      | Some (before, node, after) =>
          let params :=
            match step_params st, us_parameters (value node) with
            | Some p, Some old =>
                if String.eqb (segment (value node)) (step_segment st)
                then StringMap_merge old p else p
            | Some p, None => p
            | None, _ => []
            end in
          let urlSegment := mkUrlSegment next (step_segment st) (Some params) (step_outlet st) in
          let (kids, next') := _updateMany rest (children node) (S next) in
          (before ++ mkTreeNode urlSegment kids :: after, next')
      | None =>
          let params := match step_params st with Some p => p | None => [] end in
          let urlSegment := mkUrlSegment next (step_segment st) (Some params) (step_outlet st) in
          let (kids, next') := _updateMany rest [] (S next) in
          (nodes ++ [mkTreeNode urlSegment kids], next')
      end
  end.

(** Modelled from the spec: the node of the URL tree that holds the very
    segment [segment], in pre-order. *)
Fixpoint _findMatchingNode (segment : UrlSegment) (node : TreeNode UrlSegment)
  : option (TreeNode UrlSegment) :=
  match node with
  | mkTreeNode v cs =>
      if Nat.eqb (us_ref v) (us_ref segment) then Some node
      else
        (fix loop (l : list (TreeNode UrlSegment)) : option (TreeNode UrlSegment) :=
           match l with
           | [] => None
           | c :: rest =>
               match _findMatchingNode segment c with
               | Some r => Some r
               | None => loop rest
               end
           end) cs
  end.

(** Modelled from the spec: the new tree (step 7): the nodes down to the
    anchor are built anew around the untouched branches, and the anchor gets
    the updated children. *)
Fixpoint _constructNewTree (node : TreeNode UrlSegment) (original : UrlSegment)
  (updated : list (TreeNode UrlSegment)) : TreeNode UrlSegment :=
  match node with
  | mkTreeNode v cs =>
      if Nat.eqb (us_ref v) (us_ref original) then mkTreeNode v updated
      else mkTreeNode v (map (fun c => _constructNewTree c original updated) cs)
  end.

(** Modelled from the spec: the anchor of a relative navigation (step 1 and
    the last edge rule): the last URL segment of [segment] or, when it has
    none, of its nearest ancestor in the route tree that has one, looked up
    in the URL tree by value equality. *)
Definition _findUrlSegment (segment : RouteSegment) (routeTree : RouteTree)
  (urlTree : UrlTree) : M UrlSegment :=
  s <- (match urlSegments segment with
        | _ :: _ => ret (Some segment)
        | [] =>
            path <- pathFromRoot routeTree segment ;;
            ret (find (fun s => negb (Nat.eqb (length (urlSegments s)) 0)) (rev path))
        end) ;;
  segs <- field s urlSegments ;;
  path <- pathFromRoot urlTree (last segs (root urlTree)) ;;
  ret (last path (root urlTree)).

(** Modelled from the spec: [link] of [link.ts], which is not among the
    sources.  An empty command list gives the URL tree back as it is (step
    2).  Otherwise the anchor is the root for absolute commands and
    [_findUrlSegment] for relative ones, its children are updated and a new
    tree object is built.  [next] is the first unused object reference; the
    result comes with the first one still unused afterwards. *)
Definition link (segment : RouteSegment) (routeTree : RouteTree) (urlTree : UrlTree)
  (change : list Command) (next : nat) : M (UrlTree * nat) :=
  match change with
  | [] => ret (urlTree, next)
  | _ :: _ =>
      let normalized := _normalizeCommands change in
      anchor <- (if isAbsolute normalized then ret (root urlTree)
                 else _findUrlSegment segment routeTree urlTree) ;;
      startingNode <- field (_findMatchingNode anchor (rootNode urlTree)) id ;;
      let (updated, next') :=
        _updateMany (_steps (commands normalized)) (children startingNode) next in
      ret (mkTree next' (_constructNewTree (rootNode urlTree) anchor updated), S next')
  end.

(** Modelled from the spec: the path string of a URL tree, as the external
    [DefaultRouterUrlSerializer] renders it: every segment as
    [outlet:segment;k=v], the first child of a node after a [/], its other
    children (the auxiliary outlets) in parentheses, separated by commas,
    and then the children of the first child. *)
Fixpoint _serializeChildren (node : TreeNode UrlSegment) : string :=
  match node with
  | mkTreeNode _ cs =>
      match cs with
      | [] => ""
      | main :: aux =>
          let auxStrings :=
            map (fun a => (UrlSegment_toString (value a) ++ _serializeChildren a)%string) aux in
          ("/" ++ UrlSegment_toString (value main)
               ++ match auxStrings with
                  | [] => ""
                  | _ :: _ => "(" ++ String.concat "," auxStrings ++ ")"
                  end
               ++ _serializeChildren main)%string
      end
  end.

(** Modelled from the spec: [serialize] of the external serializer. *)
Definition serialize (tree : UrlTree) : string :=
  (UrlSegment_toString (root tree) ++ _serializeChildren (rootNode tree))%string.

(* ================================================================== *)
(** ** Induction on trees *)
(* ================================================================== *)

Section TreeNode_induction.
Context {T : Type} (P : TreeNode T -> Prop).
Hypothesis node_case : forall v cs, Forall P cs -> P (mkTreeNode v cs).

Fixpoint TreeNode_Forall_ind (c : TreeNode T) : P c :=
  match c with
  | mkTreeNode v cs =>
      node_case v cs
        ((fix all (l : list (TreeNode T)) : Forall P l :=
            match l with
            | [] => Forall_nil P
            | x :: rest => Forall_cons x (TreeNode_Forall_ind x) (all rest)
            end) cs)
  end.
End TreeNode_induction.

(* ================================================================== *)
(** ** Notions the properties are stated with *)
(* ================================================================== *)

(** Two maps hold the same key/value pairs, in whatever order. *)
Definition same_pairs (m1 m2 : StringMap) : Prop :=
  forall k v, In (k, v) m1 <-> In (k, v) m2.

(** The nodes of a tree in pre-order: the node, then its children from left
    to right, each with its descendants. *)
Fixpoint preorder {T} (c : TreeNode T) : list (TreeNode T) :=
  match c with
  | mkTreeNode _ cs => c :: flat_map preorder cs
  end.

(** The first element that [p] accepts, [p] being allowed to throw. *)
Fixpoint findM {A} (p : A -> M bool) (l : list A) : M (option A) :=
  match l with
  | [] => ret None
  | x :: rest => hit <- p x ;; if hit then ret (Some x) else findM p rest
  end.

(** The test [_findNode] applies at a node: [equalSegments] when the value
    looked for is a [RouteSegment], and [===] otherwise and besides. *)
Definition _findNode_matches {T} `{Any T} (expected : T) (c : TreeNode T) : M bool :=
  hit <- match toAny expected with
         | VRouteSegment r => equalSegments_any r (toAny (value c))
         | _ => ret false
         end ;;
  if hit then ret true else ret (strict_equals (toAny expected) (toAny (value c))).

(** The test [_findPath] applies at a node. *)
Definition _findPath_matches {T} `{Any T} (expected : T) (c : TreeNode T) : M bool :=
  _equalValues (toAny expected) (toAny (value c)).

(** The loops of [_findNode], [_findPath] and [_contains] over the children
    of a node, by name. *)
Fixpoint _findNode_children {T} `{Any T} (expected : T) (l : list (TreeNode T))
  : M (option (TreeNode T)) :=
  match l with
  | [] => ret None
  | cc :: rest =>
      r <- _findNode expected cc ;;
      if isPresent r then ret r else _findNode_children expected rest
  end.

Fixpoint _findPath_children {T} `{Any T} (expected : T) (collected : list (TreeNode T))
  (l : list (TreeNode T)) : M (option (list (TreeNode T))) :=
  match l with
  | [] => ret None
  | cc :: rest =>
      r <- _findPath expected cc collected ;;
      if isPresent r then ret r else _findPath_children expected collected rest
  end.

(** The children of [tree] that [filter] keeps for [subtreeNode]. *)
Definition _contains_candidates {T} `{Any T} (tree subtreeNode : TreeNode T)
  : M (list (TreeNode T)) :=
  filterM (fun child => _equalValues (toAny (value child)) (toAny (value subtreeNode)))
          (children tree).

Fixpoint _contains_children {T} `{Any T} (tree : TreeNode T) (l : list (TreeNode T))
  : M bool :=
  match l with
  | [] => ret true
  | subtreeNode :: rest =>
      s <- _contains_candidates tree subtreeNode ;;
      match s with
      | [] => ret false
      | s0 :: _ =>
          inside <- _contains s0 subtreeNode ;;
          if negb inside then ret false else _contains_children tree rest
      end
  end.

(** The children of one node carry pairwise different values, whichever way
    round they are compared. *)
Definition unequal_nodes {T} `{Any T} (c1 c2 : TreeNode T) : Prop :=
  _equalValues (toAny (value c1)) (toAny (value c2)) = ret false /\
  _equalValues (toAny (value c2)) (toAny (value c1)) = ret false.

Definition distinct_children {T} `{Any T} (c : TreeNode T) : Prop :=
  ForallOrdPairs unequal_nodes (children c).

(** A segment value carries its parameter map. *)
Definition has_parameters (v : Value) : Prop :=
  match v with
  | VRouteSegment r => rs_parameters r <> None
  | VUrlSegment u => us_parameters u <> None
  | VOther _ => True
  end.

(** [subtree] can be laid into [tree]: the values are equal, and every child
    of [subtree] can be laid into some child of [tree]. *)
#[local] Unset Elimination Schemes.
Inductive embeddable {T} `{Any T} : TreeNode T -> TreeNode T -> Prop :=
| embeddable_node (tree subtree : TreeNode T) :
    _equalValues (toAny (value tree)) (toAny (value subtree)) = ret true ->
    (forall sc, In sc (children subtree) ->
                exists tc, In tc (children tree) /\ embeddable tc sc) ->
    embeddable tree subtree.
#[local] Set Elimination Schemes.

(** The same segment with other [urlSegments]. *)
Definition with_urlSegments (r : RouteSegment) (us : list UrlSegment) : RouteSegment :=
  mkRouteSegment (rs_ref r) us (rs_parameters r) (rs_outlet r) (_type r) (_componentFactory r).

(** What [StringMapWrapper.equals] computes on two maps. *)
Definition StringMap_eqb (m1 m2 : StringMap) : bool :=
  Nat.eqb (length (StringMap_keys m1)) (length (StringMap_keys m2)) &&
  forallb (fun key => string_opt_eqb (StringMap_get m1 key) (StringMap_get m2 key))
          (StringMap_keys m1).

(* ------------------------------------------------------------------ *)
(** *** Sample trees *)
(* ------------------------------------------------------------------ *)

Definition leaf {T} (v : T) : TreeNode T := mkTreeNode v [].

(** Modelled from the spec: the URL tree that the external parser yields for
    [/a/11/b(c)], read off the path format of section 4.2: below the root
    segment the path [a], [11], and below [11] the primary [b] with its
    sibling [c] on the outlet [aux].  The segments are the objects 0 to 4,
    the tree is the object 5. *)
Definition url_a_11_b_c : UrlTree :=
  mkTree 5
    (mkTreeNode (mkUrlSegment 0 "" (Some []) None)
       [mkTreeNode (mkUrlSegment 1 "a" (Some []) None)
          [mkTreeNode (mkUrlSegment 2 "11" (Some []) None)
             [leaf (mkUrlSegment 3 "b" (Some []) None);
              leaf (mkUrlSegment 4 "c" (Some []) (Some "aux"))]]]).

(** The helper [s] of the tests of [link]: the route tree of one route
    segment that took the URL segment [u]; the objects [r] and [r + 1]. *)
Definition s (r : nat) (u : UrlSegment) : RouteTree :=
  mkTree (S r) (leaf (mkRouteSegment r [u] (Some []) None None None)).

(** A tree of plain values with two equal siblings: [0 [1 []; 1 [2]]]. *)
Definition twins : Tree nat :=
  mkTree 0 (mkTreeNode 0 [leaf 1; mkTreeNode 1 [leaf 2]]).


(** The URL tree of [/a/b], a segment that is equal to its [a] but is
    another object, and one that is nowhere in it. *)
Definition url_a_b : UrlTree :=
  mkTree 2
    (mkTreeNode (mkUrlSegment 0 "" (Some []) None)
       [mkTreeNode (mkUrlSegment 1 "a" (Some []) None)
          [leaf (mkUrlSegment 3 "b" (Some []) None)]]).

Definition other_a : UrlSegment := mkUrlSegment 7 "a" (Some []) None.
Definition stranger : UrlSegment := mkUrlSegment 8 "zzz" (Some []) None.


(* ================================================================== *)
(** ** Further notions: paths and well-formed values *)
(* ================================================================== *)

(** [reaches c q n]: [q] lists the nodes on the way from [c] down to [n],
    both included, each one a child of the one before. *)
Inductive reaches {T} : TreeNode T -> list (TreeNode T) -> TreeNode T -> Prop :=
| reaches_here (c : TreeNode T) : reaches c [c] c
| reaches_child (c child : TreeNode T) (q : list (TreeNode T)) (n : TreeNode T) :
    In child (children c) -> reaches child q n -> reaches c (c :: q) n.

(** The last element of a list, if it has one. *)
Definition last_of {A} (l : list A) : option A := hd_error (rev l).

(** A segment as the router builds it: with its parameter map, which, being
    an object, holds no key twice. *)
Definition UrlSegment_wf (u : UrlSegment) : Prop :=
  exists p, us_parameters u = Some p /\ StringMap_wf p.

Definition RouteSegment_wf (r : RouteSegment) : Prop :=
  exists p, rs_parameters r = Some p /\ StringMap_wf p.

Definition well_formed (v : Value) : Prop :=
  match v with
  | VRouteSegment r => RouteSegment_wf r
  | VUrlSegment u => UrlSegment_wf u
  | VOther _ => True
  end.

(** What [_equalValues] returns on two values with their parameter maps. *)
Definition Value_eqb (a b : Value) : bool :=
  match a, b with
  | VRouteSegment r1, VRouteSegment r2 =>
      nat_opt_eqb (_type r1) (_type r2) &&
      string_opt_eqb (rs_outlet r1) (rs_outlet r2) &&
      match rs_parameters r1, rs_parameters r2 with
      | Some p1, Some p2 => StringMap_eqb p1 p2
      | _, _ => false
      end
  | VUrlSegment u1, VUrlSegment u2 =>
      String.eqb (segment u1) (segment u2) &&
      string_opt_eqb (us_outlet u1) (us_outlet u2) &&
      match us_parameters u1, us_parameters u2 with
      | Some p1, Some p2 => StringMap_eqb p1 p2
      | _, _ => false
      end
  | VOther x, VOther y => Nat.eqb x y
  | _, _ => false
  end.

(** A URL tree made of other objects than [url_a_11_b_c], which lies in it
    along [a], [11] and the auxiliary [c]. *)
Definition url_a_11_c : UrlTree :=
  mkTree 25
    (mkTreeNode (mkUrlSegment 20 "" (Some []) None)
       [mkTreeNode (mkUrlSegment 21 "a" (Some []) None)
          [mkTreeNode (mkUrlSegment 22 "11" (Some []) None)
             [leaf (mkUrlSegment 24 "c" (Some []) (Some "aux"))]]]).

(** The values [_findNode] can test without reading an absent parameter
    map: it compares route segments only. *)
Definition testable_by_findNode (v : Value) : Prop :=
  match v with
  | VRouteSegment r => RouteSegment_wf r
  | _ => True
  end.

(** What the test of [_findNode] returns on such values. *)
Definition _findNode_test (a b : Value) : bool :=
  match a with
  | VRouteSegment _ => Value_eqb a b || strict_equals a b
  | _ => strict_equals a b
  end.

(** The URL tree of [/a], of objects of its own. *)
Definition url_a_alone : UrlTree :=
  mkTree 32
    (mkTreeNode (mkUrlSegment 30 "" (Some []) None)
       [leaf (mkUrlSegment 31 "a" (Some []) None)]).
(* ================================================================== *)
(** ** Laws of the effects *)
(* ================================================================== *)

Lemma bind_ret_l {A B} (a : A) (f : A -> M B) : bind (ret a) f = f a.
Proof. unfold bind, ret. destruct (f a); reflexivity. Qed.

Lemma bind_ret_r {A} (m : M A) : bind m ret = m.
Proof.
  destruct m as [out [a | e]]; simpl; [rewrite app_nil_r |]; reflexivity.
Qed.

Lemma bind_throw {A B} (e : JsError) (f : A -> M B) : bind (throw e) f = throw e.
Proof. reflexivity. Qed.

Lemma bind_assoc {A B C} (m : M A) (f : A -> M B) (g : B -> M C) :
  bind (bind m f) g = bind m (fun a => bind (f a) g).
Proof.
  destruct m as [out [a | e]]; simpl; [| reflexivity].
  destruct (f a) as [out1 [b | e]]; simpl; [| reflexivity].
  destruct (g b) as [out2 r]. rewrite app_assoc. reflexivity.
Qed.

Lemma bind_ext {A B} (m : M A) (f g : A -> M B) :
  (forall a, f a = g a) -> bind m f = bind m g.
Proof.
  intros E. destruct m as [out [a | e]]; simpl; [rewrite E |]; reflexivity.
Qed.

(** A computation that returns without output is made of such steps. *)
Lemma bind_ret_inv {A B} (m : M A) (f : A -> M B) (b : B) :
  bind m f = ret b -> exists a, m = ret a /\ f a = ret b.
Proof.
  destruct m as [out [a | e]]; simpl; [| discriminate].
  destruct (f a) as [out' r] eqn:E. unfold ret. intros Eq.
  injection Eq as Eout Er. apply app_eq_nil in Eout as [-> ->].
  exists a. rewrite E, Er. split; reflexivity.
Qed.

Lemma ret_inj {A} (a b : A) : ret a = ret b -> a = b.
Proof. unfold ret. intros E. injection E as E. exact E. Qed.

(** From here on [bind] and [ret] are handled by their laws. *)
Arguments bind : simpl never.
Arguments ret : simpl never.
Arguments throw : simpl never.

(* ================================================================== *)
(** ** String maps *)
(* ================================================================== *)

Lemma string_opt_eqb_eq (a b : option string) : string_opt_eqb a b = true <-> a = b.
Proof.
  destruct a as [x |], b as [y |]; simpl; try (split; congruence).
  rewrite String.eqb_eq. split; congruence.
Qed.

Lemma string_opt_eqb_refl (a : option string) : string_opt_eqb a a = true.
Proof. apply string_opt_eqb_eq. reflexivity. Qed.

Lemma nat_opt_eqb_eq (a b : option nat) : nat_opt_eqb a b = true <-> a = b.
Proof.
  destruct a as [x |], b as [y |]; simpl; try (split; congruence).
  rewrite Nat.eqb_eq. split; congruence.
Qed.

Lemma StringMap_get_Some_In (m : StringMap) (k v : string) :
  StringMap_get m k = Some v -> In (k, v) m.
Proof.
  induction m as [| [k' v'] m IH]; simpl; [discriminate |].
  destruct (String.eqb k' k) eqn:E.
  - apply String.eqb_eq in E. intros [= ->]. left. congruence.
  - intros G. right. exact (IH G).
Qed.

Lemma StringMap_get_None (m : StringMap) (k : string) :
  StringMap_get m k = None <-> ~ In k (StringMap_keys m).
Proof.
  induction m as [| [k' v'] m IH]; simpl; [tauto |].
  destruct (String.eqb k' k) eqn:E.
  - apply String.eqb_eq in E. split; [discriminate | intros N; exfalso; auto].
  - apply String.eqb_neq in E. rewrite IH. tauto.
Qed.

Lemma StringMap_In_get (m : StringMap) (k v : string) :
  StringMap_wf m -> In (k, v) m -> StringMap_get m k = Some v.
Proof.
  unfold StringMap_wf.
  induction m as [| [k' v'] m IH]; simpl; [tauto |].
  intros ND [E | I].
  - injection E as -> ->. rewrite String.eqb_refl. reflexivity.
  - inversion ND as [| ? ? NI ND']; subst.
    destruct (String.eqb k' k) eqn:E.
    + apply String.eqb_eq in E. subst k'. exfalso. apply NI.
      change k with (fst (k, v)). apply in_map. exact I.
    + apply IH; assumption.
Qed.

Lemma StringMap_key_get (m : StringMap) (k : string) :
  In k (StringMap_keys m) -> exists v, StringMap_get m k = Some v.
Proof.
  intros I. destruct (StringMap_get m k) as [v |] eqn:G; [eauto |].
  apply StringMap_get_None in G. contradiction.
Qed.

Lemma In_StringMap_keys (m : StringMap) (k v : string) :
  In (k, v) m -> In k (StringMap_keys m).
Proof. intros I. change k with (fst (k, v)). apply in_map. exact I. Qed.

Lemma StringMapWrapper_equals_present (m1 m2 : StringMap) :
  StringMapWrapper_equals (Some m1) (Some m2) = ret (StringMap_eqb m1 m2).
Proof.
  unfold StringMapWrapper_equals, StringMap_eqb.
  destruct (Nat.eqb _ _); reflexivity.
Qed.

Lemma StringMap_eqb_same_pairs (m1 m2 : StringMap) :
  StringMap_wf m1 -> StringMap_wf m2 ->
  (StringMap_eqb m1 m2 = true <-> same_pairs m1 m2).
Proof.
  intros W1 W2. unfold StringMap_eqb.
  rewrite andb_true_iff, Nat.eqb_eq, forallb_forall. split.
  - intros [L F].
    assert (Sub : incl (StringMap_keys m1) (StringMap_keys m2)).
    { intros k I. destruct (StringMap_key_get _ _ I) as [v G].
      specialize (F k I). apply string_opt_eqb_eq in F. rewrite G in F.
      symmetry in F. apply StringMap_get_Some_In in F.
      eapply In_StringMap_keys; eassumption. }
    assert (Sup : incl (StringMap_keys m2) (StringMap_keys m1)).
    { apply NoDup_length_incl; [exact W1 | lia | exact Sub]. }
    intros k v. split; intros I.
    + pose proof (In_StringMap_keys _ _ _ I) as K.
      specialize (F k K). apply string_opt_eqb_eq in F.
      rewrite (StringMap_In_get _ _ _ W1 I) in F.
      symmetry in F. apply StringMap_get_Some_In. exact F.
    + pose proof (Sup _ (In_StringMap_keys _ _ _ I)) as K.
      specialize (F k K). apply string_opt_eqb_eq in F.
      rewrite (StringMap_In_get _ _ _ W2 I) in F.
      apply StringMap_get_Some_In. exact F.
  - intros S. split.
    + apply Permutation_length. apply NoDup_Permutation; [exact W1 | exact W2 |].
      intros k. split; intros I.
      * destruct (StringMap_key_get _ _ I) as [v G].
        apply StringMap_get_Some_In, S in G. eapply In_StringMap_keys; eassumption.
      * destruct (StringMap_key_get _ _ I) as [v G].
        apply StringMap_get_Some_In, S in G. eapply In_StringMap_keys; eassumption.
    + intros k I. apply string_opt_eqb_eq.
      destruct (StringMap_key_get _ _ I) as [v G]. rewrite G. symmetry.
      apply StringMap_In_get; [exact W2 |].
      apply S. apply StringMap_get_Some_In. exact G.
Qed.

(** Listing the same pairs in another order changes nothing. *)
Lemma same_pairs_Permutation (m1 m2 : StringMap) :
  Permutation m1 m2 -> same_pairs m1 m2.
Proof.
  intros P k v. split; intros I.
  - eapply Permutation_in; eassumption.
  - eapply Permutation_in; [apply Permutation_sym |]; eassumption.
Qed.

Lemma StringMap_wf_Permutation (m1 m2 : StringMap) :
  Permutation m1 m2 -> StringMap_wf m1 -> StringMap_wf m2.
Proof.
  unfold StringMap_wf. intros P W.
  eapply Permutation_NoDup; [apply Permutation_map; exact P | exact W].
Qed.

(** The order of the keys of either map plays no part in the comparison. *)
Lemma StringMap_eqb_Permutation (m1 m1' m2 m2' : StringMap) :
  StringMap_wf m1 -> StringMap_wf m2 ->
  Permutation m1 m1' -> Permutation m2 m2' ->
  StringMap_eqb m1' m2' = StringMap_eqb m1 m2.
Proof.
  intros W1 W2 P1 P2.
  pose proof (StringMap_wf_Permutation _ _ P1 W1) as W1'.
  pose proof (StringMap_wf_Permutation _ _ P2 W2) as W2'.
  pose proof (same_pairs_Permutation _ _ P1) as S1.
  pose proof (same_pairs_Permutation _ _ P2) as S2.
  apply Bool.eq_iff_eq_true.
  rewrite (StringMap_eqb_same_pairs _ _ W1' W2'), (StringMap_eqb_same_pairs _ _ W1 W2).
  unfold same_pairs in *. split; intros S k v.
  - rewrite S1, S, S2. reflexivity.
  - rewrite <- S1, S, S2. reflexivity.
Qed.

Lemma StringMap_eqb_refl (m : StringMap) : StringMap_eqb m m = true.
Proof.
  unfold StringMap_eqb. rewrite Nat.eqb_refl. simpl.
  apply forallb_forall. intros k _. apply string_opt_eqb_refl.
Qed.

(* ================================================================== *)
(** ** The segment equalities *)
(* ================================================================== *)

(** On two segments that carry their parameter maps, both equalities write
    nothing, throw nothing and compare field by field. *)
Lemma equalUrlSegments_present (a b : UrlSegment) (pa pb : StringMap) :
  us_parameters a = Some pa -> us_parameters b = Some pb ->
  equalUrlSegments (Some a) (Some b) =
  ret (String.eqb (segment a) (segment b) &&
       string_opt_eqb (us_outlet a) (us_outlet b) &&
       StringMap_eqb pa pb).
Proof.
  intros Ea Eb. unfold equalUrlSegments. simpl. rewrite ?bind_ret_l.
  destruct (String.eqb (segment a) (segment b)); simpl; [| reflexivity].
  rewrite ?bind_ret_l.
  destruct (string_opt_eqb (us_outlet a) (us_outlet b)); simpl; [| reflexivity].
  rewrite ?bind_ret_l, Ea, Eb. simpl. rewrite ?bind_ret_l.
  apply StringMapWrapper_equals_present.
Qed.

Lemma equalSegments_present (a b : RouteSegment) (pa pb : StringMap) :
  rs_parameters a = Some pa -> rs_parameters b = Some pb ->
  equalSegments (Some a) (Some b) =
  ret (nat_opt_eqb (_type a) (_type b) &&
       string_opt_eqb (rs_outlet a) (rs_outlet b) &&
       StringMap_eqb pa pb).
Proof.
  intros Ea Eb. unfold equalSegments. simpl. rewrite ?bind_ret_l.
  destruct (nat_opt_eqb (_type a) (_type b)); simpl; [| reflexivity].
  rewrite ?bind_ret_l.
  destruct (string_opt_eqb (rs_outlet a) (rs_outlet b)); simpl; [| reflexivity].
  rewrite ?bind_ret_l, Ea, Eb.
  apply StringMapWrapper_equals_present.
Qed.

(** The two guards at the head of each equality: one argument absent and
    the other present gives [false]. *)
Lemma equalSegments_one_absent (r : RouteSegment) :
  equalSegments None (Some r) = ret false /\ equalSegments (Some r) None = ret false.
Proof. split; reflexivity. Qed.

Lemma equalUrlSegments_one_absent (u : UrlSegment) :
  equalUrlSegments None (Some u) = ret false /\ equalUrlSegments (Some u) None = ret false.
Proof. split; reflexivity. Qed.

(** Whatever is written to the console is written for a segment without
    parameter map. *)
Lemma equalUrlSegments_output (a b : option UrlSegment) :
  forall label obj, In (Log label obj) (fst (equalUrlSegments a b)) ->
    exists u, obj = Some u /\ us_parameters u = None.
Proof.
  intros label obj.
  unfold equalUrlSegments, StringMapWrapper_equals, bind, field, console_log, ret, throw.
  destruct a as [a |], b as [b |]; cbn; try tauto.
  destruct (String.eqb (segment a) (segment b)); cbn; [| tauto].
  destruct (string_opt_eqb (us_outlet a) (us_outlet b)); cbn; [| tauto].
  destruct (us_parameters a) eqn:Ea, (us_parameters b) eqn:Eb; cbn.
  - destruct (Nat.eqb _ _); cbn; tauto.
  - intros [E | []]. injection E as _ <-. eauto.
  - intros [E | []]. injection E as _ <-. eauto.
  - intros [E | [E | []]]; injection E as _ <-; eauto.
Qed.

(** [equalSegments] writes nothing. *)
Lemma equalSegments_no_output (a b : option RouteSegment) :
  fst (equalSegments a b) = [].
Proof.
  unfold equalSegments, StringMapWrapper_equals, bind, field, ret, throw.
  destruct a as [a |], b as [b |]; cbn; try reflexivity.
  destruct (nat_opt_eqb (_type a) (_type b)); cbn; [| reflexivity].
  destruct (string_opt_eqb (rs_outlet a) (rs_outlet b)); cbn; [| reflexivity].
  destruct (rs_parameters a), (rs_parameters b); cbn; try reflexivity.
  destruct (Nat.eqb _ _); reflexivity.
Qed.

(** With a parameter map absent on either side, two segments that agree on
    token and outlet are not compared: the call ends in the [TypeError] of
    the comparison of the maps. *)
Lemma equalUrlSegments_absent_map (a b : UrlSegment) :
  us_parameters a = None \/ us_parameters b = None ->
  segment a = segment b -> us_outlet a = us_outlet b ->
  snd (equalUrlSegments (Some a) (Some b)) = Throw TypeError.
Proof.
  intros N Es Eo.
  unfold equalUrlSegments, StringMapWrapper_equals, bind, field, console_log, ret, throw.
  cbn. rewrite Es, String.eqb_refl, Eo, string_opt_eqb_refl. cbn.
  destruct (us_parameters a), (us_parameters b); cbn; try reflexivity.
  destruct N; discriminate.
Qed.

(** C5, at the input where it fails: with both arguments absent neither
    guard fires and the first field read, [a._type] or [a.segment], throws a
    [TypeError]; no Boolean is returned. *)
Theorem equal_segments_both_absent_throw :
  equalSegments None None = throw TypeError /\
  equalUrlSegments None None = throw TypeError.
Proof. split; reflexivity. Qed.

(** C6: for two URL segments that carry their parameter maps,
    [equalUrlSegments] returns a Boolean, and it is [true] exactly when the
    segment tokens are the same, the outlets are the same and the parameter
    maps hold the same key/value pairs, in whatever order the keys come. *)
Theorem equalUrlSegments_iff (a b : UrlSegment) (pa pb : StringMap) :
  us_parameters a = Some pa -> us_parameters b = Some pb ->
  StringMap_wf pa -> StringMap_wf pb ->
  exists r, equalUrlSegments (Some a) (Some b) = ret r /\
            (r = true <->
             segment a = segment b /\ us_outlet a = us_outlet b /\ same_pairs pa pb).
Proof.
  intros Ea Eb Wa Wb. eexists. split.
  - apply equalUrlSegments_present; eassumption.
  - rewrite !andb_true_iff, String.eqb_eq, string_opt_eqb_eq,
      (StringMap_eqb_same_pairs _ _ Wa Wb). tauto.
Qed.

(** C7: for two route segments that carry their parameter maps,
    [equalSegments] returns a Boolean, and it is [true] exactly when the
    matched route types are the same object, the outlets are the same and
    the parameter maps hold the same key/value pairs in whatever order; the
    [urlSegments] play no part: putting others in either argument leaves the
    result as it is. *)
Theorem equalSegments_iff (a b : RouteSegment) (pa pb : StringMap) :
  rs_parameters a = Some pa -> rs_parameters b = Some pb ->
  StringMap_wf pa -> StringMap_wf pb ->
  (exists r, equalSegments (Some a) (Some b) = ret r /\
             (r = true <->
              _type a = _type b /\ rs_outlet a = rs_outlet b /\ same_pairs pa pb)) /\
  (forall us us',
     equalSegments (Some (with_urlSegments a us)) (Some (with_urlSegments b us')) =
     equalSegments (Some a) (Some b)).
Proof.
  intros Ea Eb Wa Wb. split.
  - eexists. split.
    + apply equalSegments_present; eassumption.
    + rewrite !andb_true_iff, nat_opt_eqb_eq, string_opt_eqb_eq,
        (StringMap_eqb_same_pairs _ _ Wa Wb). tauto.
  - intros us us'. reflexivity.
Qed.

(** C10: on a route segment without parameter map, [getParam] returns [null]
    for every name and does not throw; on one with a map, it returns the
    value the map holds under the name.  For a name the map does not hold
    the read goes on along the prototype chain of the map: the result is the
    inherited member ([constructor], [toString], ... on a plain object) and
    [undefined] only for a name that is not inherited either. *)
Theorem getParam_null_or_stored (inherited : string -> bool) (r : RouteSegment)
  (param : string) :
  (rs_parameters r = None -> getParam inherited r param = JsNull) /\
  (forall m, rs_parameters r = Some m -> StringMap_wf m ->
     (forall v, In (param, v) m -> getParam inherited r param = JsStr v) /\
     (~ In param (StringMap_keys m) ->
      getParam inherited r param =
      if inherited param then JsInherited param else JsUndefined)).
Proof.
  unfold getParam, StringMap_read. split.
  - intros ->. reflexivity.
  - intros m -> W. split.
    + intros v I. rewrite (StringMap_In_get _ _ _ W I). reflexivity.
    + intros N. apply StringMap_get_None in N. rewrite N. reflexivity.
Qed.

(** C6 on two segments whose maps list the same pairs in another order. *)
Lemma equalUrlSegments_iff_witness :
  exists r,
    equalUrlSegments
      (Some (mkUrlSegment 1 "a" (Some [("x", "1"); ("y", "2")]) (Some "aux")))
      (Some (mkUrlSegment 2 "a" (Some [("y", "2"); ("x", "1")]) (Some "aux"))) = ret r /\
    (r = true <->
     "a" = "a" /\ Some "aux" = Some "aux" /\
     same_pairs [("x", "1"); ("y", "2")] [("y", "2"); ("x", "1")]).
Proof.
  apply (equalUrlSegments_iff
           (mkUrlSegment 1 "a" (Some [("x", "1"); ("y", "2")]) (Some "aux"))
           (mkUrlSegment 2 "a" (Some [("y", "2"); ("x", "1")]) (Some "aux"))
           [("x", "1"); ("y", "2")] [("y", "2"); ("x", "1")]).
  - reflexivity.
  - reflexivity.
  - unfold StringMap_wf. simpl. repeat constructor; simpl; intuition discriminate.
  - unfold StringMap_wf. simpl. repeat constructor; simpl; intuition discriminate.
Defined.

(** C7 on two segments with other [urlSegments] and the keys in another
    order. *)
Lemma equalSegments_iff_witness :
  (exists r,
     equalSegments
       (Some (mkRouteSegment 1 [] (Some [("id", "7"); ("tab", "x")]) None (Some 3) None))
       (Some (mkRouteSegment 2 [mkUrlSegment 9 "a" (Some []) None]
                (Some [("tab", "x"); ("id", "7")]) None (Some 3) (Some 4))) = ret r /\
     (r = true <->
      Some 3 = Some 3 /\ @None string = None /\
      same_pairs [("id", "7"); ("tab", "x")] [("tab", "x"); ("id", "7")])) /\
  (forall us us',
     equalSegments
       (Some (with_urlSegments
                (mkRouteSegment 1 [] (Some [("id", "7"); ("tab", "x")]) None (Some 3) None) us))
       (Some (with_urlSegments
                (mkRouteSegment 2 [mkUrlSegment 9 "a" (Some []) None]
                   (Some [("tab", "x"); ("id", "7")]) None (Some 3) (Some 4)) us')) =
     equalSegments
       (Some (mkRouteSegment 1 [] (Some [("id", "7"); ("tab", "x")]) None (Some 3) None))
       (Some (mkRouteSegment 2 [mkUrlSegment 9 "a" (Some []) None]
                (Some [("tab", "x"); ("id", "7")]) None (Some 3) (Some 4)))).
Proof.
  apply (equalSegments_iff
           (mkRouteSegment 1 [] (Some [("id", "7"); ("tab", "x")]) None (Some 3) None)
           (mkRouteSegment 2 [mkUrlSegment 9 "a" (Some []) None]
              (Some [("tab", "x"); ("id", "7")]) None (Some 3) (Some 4))
           [("id", "7"); ("tab", "x")] [("tab", "x"); ("id", "7")]).
  - reflexivity.
  - reflexivity.
  - unfold StringMap_wf. simpl. repeat constructor; simpl; intuition discriminate.
  - unfold StringMap_wf. simpl. repeat constructor; simpl; intuition discriminate.
Defined.

(** The two segments of the witnesses do compare equal. *)
Example equalUrlSegments_other_order :
  equalUrlSegments
    (Some (mkUrlSegment 1 "a" (Some [("x", "1"); ("y", "2")]) (Some "aux")))
    (Some (mkUrlSegment 2 "a" (Some [("y", "2"); ("x", "1")]) (Some "aux"))) = ret true.
Proof. reflexivity. Qed.

Example equalSegments_other_urlSegments :
  equalSegments
    (Some (mkRouteSegment 1 [] (Some [("id", "7"); ("tab", "x")]) None (Some 3) None))
    (Some (mkRouteSegment 2 [mkUrlSegment 9 "a" (Some []) None]
             (Some [("tab", "x"); ("id", "7")]) None (Some 3) (Some 4))) = ret true.
Proof. reflexivity. Qed.

(** A segment without parameter map is reported on the console before the
    comparison of the maps is reached. *)
Example equalUrlSegments_absent_map_logged :
  let a := mkUrlSegment 1 "a" None None in
  let b := mkUrlSegment 2 "a" (Some []) None in
  equalUrlSegments (Some a) (Some b) = ([Log "a" (Some a)], Throw TypeError).
Proof. reflexivity. Qed.

(** C10 on a segment with the parameter [id], the map a plain object. *)
Lemma getParam_null_or_stored_witness :
  (rs_parameters (mkRouteSegment 1 [] (Some [("id", "7")]) None None None) = None ->
   getParam plain_object (mkRouteSegment 1 [] (Some [("id", "7")]) None None None) "id"
   = JsNull) /\
  (forall m,
     rs_parameters (mkRouteSegment 1 [] (Some [("id", "7")]) None None None) = Some m ->
     StringMap_wf m ->
     (forall v, In ("id", v) m ->
        getParam plain_object (mkRouteSegment 1 [] (Some [("id", "7")]) None None None) "id"
        = JsStr v) /\
     (~ In "id" (StringMap_keys m) ->
        getParam plain_object (mkRouteSegment 1 [] (Some [("id", "7")]) None None None) "id"
        = if plain_object "id" then JsInherited "id" else JsUndefined)).
Proof.
  apply (getParam_null_or_stored plain_object
           (mkRouteSegment 1 [] (Some [("id", "7")]) None None None) "id").
Defined.

Example getParam_samples :
  let r := mkRouteSegment 1 [] (Some [("id", "7")]) None None None in
  getParam plain_object (mkRouteSegment 1 [] None None None None) "id" = JsNull /\
  getParam plain_object (mkRouteSegment 1 [] None None None None) "constructor" = JsNull /\
  getParam plain_object r "id" = JsStr "7" /\
  getParam plain_object r "tab" = JsUndefined /\
  getParam plain_object r "constructor" = JsInherited "constructor" /\
  getParam plain_object r "toString" = JsInherited "toString" /\
  getParam plain_object r "hasOwnProperty" = JsInherited "hasOwnProperty" /\
  getParam plain_object
    (mkRouteSegment 1 [] (Some [("toString", "mine")]) None None None) "toString"
  = JsStr "mine".
Proof. repeat split. Qed.

(* ================================================================== *)
(** ** The lookups *)
(* ================================================================== *)

Section Lookups.
Context {T : Type} `{Any T}.

Lemma _findNode_unfold (expected : T) (c : TreeNode T) :
  _findNode expected c =
  (hit <- match toAny expected with
          | VRouteSegment r => equalSegments_any r (toAny (value c))
          | _ => ret false
          end ;;
   if hit then ret (Some c)
   else if strict_equals (toAny expected) (toAny (value c)) then ret (Some c)
   else _findNode_children expected (children c)).
Proof.
  destruct c as [v cs]. simpl. apply bind_ext. intros [|]; [reflexivity |].
  destruct (strict_equals _ _); [reflexivity |].
  induction cs as [| cc rest IH]; simpl; [reflexivity |].
  apply bind_ext. intros r. destruct (isPresent r); [reflexivity | exact IH].
Qed.

Lemma _findPath_unfold (expected : T) (c : TreeNode T) (collected : list (TreeNode T)) :
  _findPath expected c collected =
  (hit <- _equalValues (toAny expected) (toAny (value c)) ;;
   if hit then ret (Some (collected ++ [c]))
   else _findPath_children expected (collected ++ [c]) (children c)).
Proof.
  destruct c as [v cs]. simpl. apply bind_ext. intros [|]; [reflexivity |].
  generalize (collected ++ [mkTreeNode v cs]). intros acc.
  induction cs as [| cc rest IH]; simpl; [reflexivity |].
  apply bind_ext. intros r. destruct (isPresent r); [reflexivity | exact IH].
Qed.

Lemma _contains_unfold (tree subtree : TreeNode T) :
  _contains tree subtree =
  (same <- _equalValues (toAny (value tree)) (toAny (value subtree)) ;;
   if negb same then ret false else _contains_children tree (children subtree)).
Proof.
  destruct subtree as [sv scs]. simpl. apply bind_ext. intros [|]; [| reflexivity].
  simpl. induction scs as [| subtreeNode rest IH]; simpl; [reflexivity |].
  unfold _contains_candidates. apply bind_ext. intros [| s0 others]; [reflexivity |].
  apply bind_ext. intros [|]; [exact IH | reflexivity].
Qed.

Lemma findM_app {A} (p : A -> M bool) (l1 l2 : list A) :
  findM p (l1 ++ l2) =
  (r <- findM p l1 ;; match r with Some x => ret (Some x) | None => findM p l2 end).
Proof.
  induction l1 as [| x l1 IH]; simpl.
  - rewrite bind_ret_l. reflexivity.
  - rewrite bind_assoc. apply bind_ext. intros [|].
    + rewrite bind_ret_l. reflexivity.
    + exact IH.
Qed.

Lemma findM_none {A} (p : A -> M bool) (l : list A) :
  Forall (fun x => p x = ret false) l -> findM p l = ret None.
Proof.
  induction 1 as [| x l E _ IH]; simpl; [reflexivity |].
  rewrite E, bind_ret_l. exact IH.
Qed.

(** [_findNode] is the search for the first match among the nodes in
    pre-order. *)
Lemma _findNode_preorder (expected : T) (c : TreeNode T) :
  _findNode expected c = findM (_findNode_matches expected) (preorder c).
Proof.
  induction c as [v cs IH] using TreeNode_Forall_ind.
  rewrite _findNode_unfold. simpl preorder. simpl findM.
  unfold _findNode_matches at 1. rewrite bind_assoc. apply bind_ext.
  intros [|]; rewrite bind_ret_l; [reflexivity |].
  simpl value. simpl children.
  destruct (strict_equals (toAny expected) (toAny v)); [reflexivity |].
  induction IH as [| cc rest E _ IHrest]; simpl; [reflexivity |].
  rewrite findM_app, E. apply bind_ext.
  intros [n |]; simpl; [reflexivity | exact IHrest].
Qed.

(** A value that no node matches: [_findPath] returns [null], and so
    [pathFromRoot] and [parent], which go on to read it, throw. *)
Lemma _findPath_absent (expected : T) (c : TreeNode T) :
  Forall (fun n => _findPath_matches expected n = ret false) (preorder c) ->
  forall collected, _findPath expected c collected = ret None.
Proof.
  induction c as [v cs IH] using TreeNode_Forall_ind.
  intros A collected. simpl preorder in A. inversion A as [| ? ? E A']; subst.
  rewrite _findPath_unfold. unfold _findPath_matches in E. rewrite E, bind_ret_l.
  simpl children. generalize (collected ++ [mkTreeNode v cs]). clear E A.
  induction IH as [| cc rest IHcc _ IHrest]; intros acc; simpl; [reflexivity |].
  simpl in A'. apply Forall_app in A' as [Acc Arest].
  rewrite (IHcc Acc), bind_ret_l. simpl. apply IHrest. exact Arest.
Qed.

Lemma pathFromRoot_absent (t : Tree T) (v : T) :
  Forall (fun n => _findPath_matches v n = ret false) (preorder (_root t)) ->
  pathFromRoot t v = throw TypeError /\ parent t v = throw TypeError.
Proof.
  intros A. assert (E : pathFromRoot t v = throw TypeError).
  { unfold pathFromRoot. rewrite (_findPath_absent _ _ A), bind_ret_l. reflexivity. }
  split; [exact E |]. unfold parent. rewrite E. reflexivity.
Qed.

Lemma children_absent (t : Tree T) (v : T) :
  Forall (fun n => _findNode_matches v n = ret false) (preorder (_root t)) ->
  Tree_children t v = ret None /\ firstChild t v = ret None.
Proof.
  intros A. unfold Tree_children, firstChild.
  rewrite _findNode_preorder, (findM_none _ _ A), !bind_ret_l. split; reflexivity.
Qed.

End Lookups.

(** C3, at an input where it fails: a segment that is nowhere in the URL
    tree of [/a/b].  [children] and [firstChild] return [null], but
    [pathFromRoot] calls [map] on the [null] that [_findPath] returned, which
    throws a [TypeError], and [parent], which starts with [pathFromRoot],
    throws with it. *)
Theorem lookups_of_a_stranger :
  pathFromRoot url_a_b stranger = throw TypeError /\
  parent url_a_b stranger = throw TypeError /\
  Tree_children url_a_b stranger = ret None /\
  firstChild url_a_b stranger = ret None.
Proof.
  assert (P : pathFromRoot url_a_b stranger = throw TypeError /\
              parent url_a_b stranger = throw TypeError).
  { apply pathFromRoot_absent. repeat constructor. }
  assert (C : Tree_children url_a_b stranger = ret None /\
              firstChild url_a_b stranger = ret None).
  { apply children_absent. repeat constructor. }
  tauto.
Qed.

(** The same on a tree of plain values. *)
Example lookups_of_an_absent_number :
  pathFromRoot twins 5 = throw TypeError /\
  parent twins 5 = throw TypeError /\
  Tree_children twins 5 = ret None /\
  firstChild twins 5 = ret None.
Proof. repeat split. Qed.

(** On values that are in the tree the four lookups answer. *)
Example lookups_of_a_node :
  let a := mkUrlSegment 1 "a" (Some []) None in
  let b := mkUrlSegment 3 "b" (Some []) None in
  pathFromRoot url_a_b b = ret [root url_a_b; a; b] /\
  parent url_a_b b = ret (Some a) /\
  parent url_a_b (root url_a_b) = ret None /\
  Tree_children url_a_b a = ret (Some [b]) /\
  firstChild url_a_b a = ret (Some b) /\
  firstChild url_a_b b = ret None.
Proof. repeat split. Qed.

(** C4 as stated fails: [other_a] is equal to the segment [a] of the tree
    under [equalUrlSegments] and [pathFromRoot] finds it, but it is another
    object, and [children] and [firstChild] return [null] for it although the
    node of [a] has the child [b]. *)
Lemma children_of_an_equal_UrlSegment_not_found :
  let a := mkUrlSegment 1 "a" (Some []) None in
  let b := mkUrlSegment 3 "b" (Some []) None in
  equalUrlSegments (Some other_a) (Some a) = ret true /\
  us_ref other_a <> us_ref a /\
  pathFromRoot url_a_b other_a = ret [root url_a_b; a] /\
  Tree_children url_a_b a = ret (Some [b]) /\
  firstChild url_a_b a = ret (Some b) /\
  Tree_children url_a_b other_a = ret None /\
  firstChild url_a_b other_a = ret None.
Proof. repeat split. simpl. discriminate. Qed.

(** C4, amended: [children] and [firstChild] answer for the first node in
    pre-order that passes the test of [_findNode], and return [null] when
    there is none.  For a [RouteSegment] the test is [equalSegments] or,
    failing that, [===]; for a [UrlSegment] and for any other value it is
    [===] alone. *)
Theorem children_firstChild_first_match :
  (forall T (H : Any T) (t : Tree T) (v : T),
     Tree_children t v =
       (n <- findM (_findNode_matches v) (preorder (_root t)) ;;
        ret (option_map (fun n => map value (children n)) n)) /\
     firstChild t v =
       (n <- findM (_findNode_matches v) (preorder (_root t)) ;;
        ret (match n with
             | Some n => hd_error (map value (children n))
             | None => None
             end))) /\
  (forall (r : RouteSegment) (c : TreeNode RouteSegment),
     _findNode_matches r c =
       (hit <- equalSegments (Some r) (Some (value c)) ;;
        if hit then ret true else ret (Nat.eqb (rs_ref r) (rs_ref (value c))))) /\
  (forall (u : UrlSegment) (c : TreeNode UrlSegment),
     _findNode_matches u c = ret (Nat.eqb (us_ref u) (us_ref (value c)))) /\
  (forall (x : nat) (c : TreeNode nat),
     _findNode_matches x c = ret (Nat.eqb x (value c))).
Proof.
  split; [| split; [| split]].
  - intros T H t v. unfold Tree_children, firstChild.
    rewrite _findNode_preorder. split; apply bind_ext.
    + intros [n |]; reflexivity.
    + intros [n |]; [| reflexivity]. destruct (children n); reflexivity.
  - intros r c. reflexivity.
  - intros u c. unfold _findNode_matches. simpl. rewrite bind_ret_l. reflexivity.
  - intros x c. unfold _findNode_matches. simpl. rewrite bind_ret_l. reflexivity.
Qed.

(* ================================================================== *)
(** ** Containment *)
(* ================================================================== *)

Section Containment.
Context {T : Type} `{Any T}.

Lemma filterM_app {A} (p : A -> M bool) (l1 l2 : list A) :
  filterM p (l1 ++ l2) =
  (a <- filterM p l1 ;; b <- filterM p l2 ;; ret (a ++ b)).
Proof.
  induction l1 as [| x l1 IH]; simpl.
  - rewrite bind_ret_l. symmetry. apply bind_ret_r.
  - rewrite bind_assoc. apply bind_ext. intros keep.
    rewrite IH, !bind_assoc. apply bind_ext. intros a.
    rewrite bind_ret_l, bind_assoc. apply bind_ext. intros b.
    rewrite bind_ret_l. destruct keep; reflexivity.
Qed.

Lemma filterM_none {A} (p : A -> M bool) (l : list A) :
  Forall (fun x => p x = ret false) l -> filterM p l = ret [].
Proof.
  induction 1 as [| x l E _ IH]; simpl; [reflexivity |].
  rewrite E, IH, !bind_ret_l. reflexivity.
Qed.

(** A callback that neither throws nor logs makes [filterM] the plain
    [filter]. *)
Lemma filterM_pure {A} (p : A -> M bool) (q : A -> bool) (l : list A) :
  (forall x, In x l -> p x = ret (q x)) -> filterM p l = ret (filter q l).
Proof.
  induction l as [| x l IH]; intros E; simpl; [reflexivity |].
  rewrite (E x (or_introl eq_refl)), bind_ret_l, IH, bind_ret_l.
  - destruct (q x); reflexivity.
  - intros y I. apply E. right. exact I.
Qed.

Lemma ForallOrdPairs_middle {A} (R : A -> A -> Prop) (l1 l2 : list A) (x : A) :
  ForallOrdPairs R (l1 ++ x :: l2) ->
  Forall (fun y => R y x) l1 /\ Forall (R x) l2.
Proof.
  induction l1 as [| a l1 IH]; simpl; intros F.
  - inversion F; subst. split; [constructor | assumption].
  - inversion F as [| ? ? Fa F']; subst. destruct (IH F') as [F1 F2].
    split; [| exact F2]. constructor; [| exact F1].
    apply Forall_app in Fa as [_ Fa]. inversion Fa; assumption.
Qed.

(** A value with its parameter map is equal to itself. *)
Lemma _equalValues_refl (v : Value) : has_parameters v -> _equalValues v v = ret true.
Proof.
  destruct v as [r | u | x]; simpl.
  - destruct (rs_parameters r) as [p |] eqn:E; [intros _ | congruence].
    rewrite (equalSegments_present r r p p E E).
    assert (Et : nat_opt_eqb (_type r) (_type r) = true) by (apply nat_opt_eqb_eq; reflexivity).
    rewrite Et, string_opt_eqb_refl, StringMap_eqb_refl. reflexivity.
  - destruct (us_parameters u) as [p |] eqn:E; [intros _ | congruence].
    rewrite (equalUrlSegments_present u u p p E E).
    rewrite String.eqb_refl, string_opt_eqb_refl, StringMap_eqb_refl. reflexivity.
  - intros _. rewrite Nat.eqb_refl. reflexivity.
Qed.

(** Among children with pairwise different values, [filter] keeps for a
    child that child alone. *)
Lemma _contains_candidates_self (v : T) (l1 l2 : list (TreeNode T)) (x : TreeNode T) :
  has_parameters (toAny (value x)) ->
  ForallOrdPairs unequal_nodes (l1 ++ x :: l2) ->
  _contains_candidates (mkTreeNode v (l1 ++ x :: l2)) x = ret [x].
Proof.
  intros P D. apply ForallOrdPairs_middle in D as [D1 D2].
  unfold _contains_candidates. simpl children. rewrite filterM_app.
  rewrite filterM_none, bind_ret_l.
  - simpl. rewrite (_equalValues_refl _ P), bind_ret_l, filterM_none, !bind_ret_l.
    + reflexivity.
    + eapply Forall_impl; [| exact D2]. intros y [_ E]. exact E.
  - eapply Forall_impl; [| exact D1]. intros y [E _]. exact E.
Qed.

Lemma _contains_children_true_iff (tree : TreeNode T) (l : list (TreeNode T)) :
  _contains_children tree l = ret true <->
  forall sn, In sn l ->
    exists s0 others,
      _contains_candidates tree sn = ret (s0 :: others) /\ _contains s0 sn = ret true.
Proof.
  induction l as [| x l IH]; simpl.
  - split; [intros _ sn [] | reflexivity].
  - split.
    + intros E. apply bind_ret_inv in E as [cands [Ec E]].
      destruct cands as [| s0 others]; [apply ret_inj in E; discriminate |].
      apply bind_ret_inv in E as [inside [Ei E]].
      destruct inside; simpl in E; [| apply ret_inj in E; discriminate].
      intros sn [<- | I]; [eauto |]. apply IH; assumption.
    + intros A. destruct (A x (or_introl eq_refl)) as (s0 & others & Ec & Ei).
      rewrite Ec, bind_ret_l, Ei, bind_ret_l. simpl. apply IH.
      intros sn I. apply A. right. exact I.
Qed.

(** [_contains] says yes exactly when the values are equal and, for every
    child of the subtree, the first child of the tree that [filter] keeps
    contains it; the children kept after the first are never looked into. *)
Lemma _contains_true_iff (tree subtree : TreeNode T) :
  _contains tree subtree = ret true <->
  _equalValues (toAny (value tree)) (toAny (value subtree)) = ret true /\
  forall sn, In sn (children subtree) ->
    exists s0 others,
      _contains_candidates tree sn = ret (s0 :: others) /\ _contains s0 sn = ret true.
Proof.
  rewrite _contains_unfold, <- _contains_children_true_iff. split.
  - intros E. apply bind_ret_inv in E as [same [Es E]].
    destruct same; simpl in E; [| apply ret_inj in E; discriminate]. tauto.
  - intros [Es E]. rewrite Es, bind_ret_l. exact E.
Qed.

Lemma _contains_same_node (c : TreeNode T) :
  Forall (fun n => has_parameters (toAny (value n)) /\ distinct_children n) (preorder c) ->
  _contains c c = ret true.
Proof.
  induction c as [v cs IH] using TreeNode_Forall_ind.
  simpl preorder. intros A. inversion A as [| ? ? [P D] A']; subst. clear A.
  apply _contains_true_iff. split; [apply _equalValues_refl; exact P |].
  unfold distinct_children in D. simpl children in *.
  intros sn I. exists sn, []. apply in_split in I as (l1 & l2 & ->).
  rewrite Forall_flat_map in A'. rewrite Forall_forall in IH, A'.
  assert (Isn : In sn (l1 ++ sn :: l2)) by (apply in_elt).
  pose proof (A' _ Isn) as Asn. split.
  - apply _contains_candidates_self; [| exact D].
    destruct sn as [sv scs]. simpl preorder in Asn. inversion Asn as [| ? ? [Psn _] _].
    exact Psn.
  - apply IH; assumption.
Qed.

End Containment.

(** On trees of plain values [contains] always returns a Boolean, whatever
    the shapes of the two trees. *)
Lemma _contains_plain_returns (subtree : TreeNode nat) :
  forall tree : TreeNode nat, exists b, _contains tree subtree = ret b.
Proof.
  induction subtree as [sv scs IH] using TreeNode_Forall_ind. intros tree.
  rewrite _contains_unfold. simpl. rewrite bind_ret_l.
  destruct (Nat.eqb (value tree) sv); simpl; [| eauto].
  induction IH as [| sn rest IHsn _ IHrest]; simpl; [eauto |].
  unfold _contains_candidates.
  rewrite (filterM_pure _ (fun child => Nat.eqb (value child) (value sn)))
    by (intros; reflexivity).
  rewrite bind_ret_l.
  destruct (filter _ (children tree)) as [| s0 others]; [eauto |].
  destruct (IHsn s0) as [inside ->]. rewrite bind_ret_l.
  destruct inside; simpl; [exact IHrest | eauto].
Qed.

Example contains_other_shape :
  contains url_a_b url_a_11_b_c = ret false /\ contains url_a_11_b_c url_a_b = ret false.
Proof. split; reflexivity. Qed.

(** C8 as stated fails: in [twins] the two children of the root carry the
    same value, [filter] keeps both for the second one, and the first, a
    leaf, does not contain it. *)
Lemma twins_do_not_contain_themselves : contains twins twins = ret false.
Proof. reflexivity. Qed.

(** C8, amended: a tree in which every segment value carries its parameter
    map and no node has two children with equal values contains itself. *)
Theorem contains_self {T} `{Any T} (t : Tree T) :
  Forall (fun n => has_parameters (toAny (value n)) /\ distinct_children n)
         (preorder (_root t)) ->
  contains t t = ret true.
Proof. intros A. unfold contains. apply _contains_same_node. exact A. Qed.

(** C8, amended, on the URL tree of [/a/11/b(c)]. *)
Lemma contains_self_witness : contains url_a_11_b_c url_a_11_b_c = ret true.
Proof.
  apply (contains_self url_a_11_b_c).
  unfold distinct_children, unequal_nodes. simpl.
  repeat first [ reflexivity | discriminate | constructor ].
Defined.


(* ================================================================== *)
(** ** [link] *)
(* ================================================================== *)

Lemma _updateMany_next (steps : list Step) :
  forall nodes next, next <= snd (_updateMany steps nodes next).
Proof.
  induction steps as [| st rest IH]; intros nodes next; simpl; [lia |].
  destruct (_splitAtOutlet (step_outlet st) nodes) as [[[before node] after] |].
  - specialize (IH (children node) (S next)).
    destruct (_updateMany rest (children node) (S next)). simpl in *. lia.
  - specialize (IH [] (S next)).
    destruct (_updateMany rest [] (S next)). simpl in *. lia.
Qed.

(** A call with commands that returns, returns a tree object that did not
    exist before. *)
Lemma link_commands_new_tree (segment : RouteSegment) (routeTree : RouteTree)
  (urlTree : UrlTree) (c : Command) (cs : list Command) (next : nat)
  (t : UrlTree) (next' : nat) :
  snd (link segment routeTree urlTree (c :: cs) next) = Ok (t, next') ->
  next <= tree_ref t < next'.
Proof.
  unfold link.
  set (normalized := _normalizeCommands (c :: cs)).
  destruct (if isAbsolute normalized then ret (root urlTree)
            else _findUrlSegment segment routeTree urlTree) as [out [anchor | e]];
    unfold bind; [| discriminate].
  destruct (_findMatchingNode anchor (rootNode urlTree)) as [startingNode |];
    simpl; [| discriminate].
  pose proof (_updateMany_next (_steps (commands normalized))
                (children startingNode) next) as L.
  destruct (_updateMany _ _ _) as [updated n]. simpl in *.
  intros [= <- <-]. simpl. lia.
Qed.

(** The model renders the sample tree the way the URL was written, with the
    outlet of the sibling spelled out. *)
Example serialize_url_a_11_b_c : serialize url_a_11_b_c = "/a/11/b(aux:c)".
Proof. reflexivity. Qed.

(** C1: on the URL tree of [/a/11/b(c)], with the route tree [s(p.root)] of
    the test and the objects from 8 on unused, [link] with the commands
    ["/a", 11, "d"] returns a tree that is rendered as [/a/11/d(aux:c)]: the
    path is made of new segments, and next to the new [d] stands the node of
    [c] of the old tree, the object 4, as it was. *)
Theorem link_changes_main_route_keeps_sibling :
  let p := url_a_11_b_c in
  let tree := s 6 (root p) in
  let c := leaf (mkUrlSegment 4 "c" (Some []) (Some "aux")) in
  exists t,
    link (root tree) tree p [CString "/a"; CNumber 11; CString "d"] 8 = ret (t, 12) /\
    serialize t = "/a/11/d(aux:c)" /\
    _root t =
      mkTreeNode (root p)
        [mkTreeNode (mkUrlSegment 8 "a" (Some []) None)
           [mkTreeNode (mkUrlSegment 9 "11" (Some []) None)
              [leaf (mkUrlSegment 10 "d" (Some []) None); c]]] /\
    In c (preorder (_root p)).
Proof.
  cbv zeta. eexists. split; [reflexivity |]. split; [reflexivity |].
  split; [reflexivity |]. simpl. tauto.
Qed.

(** C2: with an empty command list [link] returns the URL tree it was given,
    the same object, and creates no object; whatever the position, the route
    tree and the URL tree are. *)
Theorem link_empty_commands_same_tree (segment : RouteSegment) (routeTree : RouteTree)
  (urlTree : UrlTree) (next : nat) :
  link segment routeTree urlTree [] next = ret (urlTree, next).
Proof. reflexivity. Qed.

(* ================================================================== *)
(** ** More on the effects *)
(* ================================================================== *)

(** What a sequence returns, whatever it wrote. *)
Lemma snd_bind {A B} (m : M A) (f : A -> M B) :
  snd (bind m f) = match snd m with
                   | Ok a => snd (f a)
                   | Throw e => Throw e
                   end.
Proof.
  unfold bind. destruct m as [out [a | e]]; simpl; [| reflexivity].
  destruct (f a); reflexivity.
Qed.

Lemma snd_ret {A} (a : A) : snd (ret a) = Ok a.
Proof. reflexivity. Qed.

Lemma bind_returns {A B} (m : M A) (f : A -> M B) (b : B) :
  snd (bind m f) = Ok b -> exists a, snd m = Ok a /\ snd (f a) = Ok b.
Proof.
  rewrite snd_bind. destruct (snd m) as [a | e]; [eauto | discriminate].
Qed.

Lemma bind_ext_returns {A B} (m : M A) (f g : A -> M B) :
  (forall a, snd m = Ok a -> f a = g a) -> bind m f = bind m g.
Proof.
  intros E. unfold bind. destruct m as [out [a | e]]; simpl in *; [| reflexivity].
  rewrite (E a eq_refl). reflexivity.
Qed.

(* ================================================================== *)
(** ** Paths from the root *)
(* ================================================================== *)

Section Paths.
Context {T : Type} `{Any T}.

Lemma reaches_head (c n : TreeNode T) (q : list (TreeNode T)) :
  reaches c q n -> exists q', q = c :: q'.
Proof. intros R. destruct R; eauto. Qed.

Lemma reaches_last (c n : TreeNode T) (q : list (TreeNode T)) :
  reaches c q n -> last_of q = Some n.
Proof.
  unfold last_of. induction 1 as [c | c child q n I R IH]; [reflexivity |].
  simpl. destruct (rev q) as [| x l]; [discriminate |].
  simpl in *. exact IH.
Qed.

Lemma preorder_self (c : TreeNode T) : In c (preorder c).
Proof. destruct c. left. reflexivity. Qed.

Lemma preorder_child (c child m : TreeNode T) :
  In child (children c) -> In m (preorder child) -> In m (preorder c).
Proof.
  intros I Im. destruct c as [v cs]. simpl. right. apply in_flat_map. eauto.
Qed.

Lemma reaches_preorder (c n : TreeNode T) (q : list (TreeNode T)) :
  reaches c q n -> forall m, In m q -> In m (preorder c).
Proof.
  induction 1 as [c | c child q n I R IH]; intros m Im.
  - destruct Im as [<- | []]. apply preorder_self.
  - destruct Im as [<- | Im]; [apply preorder_self |].
    eapply preorder_child; [exact I | apply IH; exact Im].
Qed.

Lemma last_of_app_last {A} (l : list A) (x : A) : last_of (l ++ [x]) = Some x.
Proof. unfold last_of. rewrite rev_app_distr. reflexivity. Qed.

(** The node before the last one on a path of two nodes or more has the
    last one among its children. *)
Lemma reaches_before_last (c n : TreeNode T) (q : list (TreeNode T)) :
  reaches c q n -> 1 < length q ->
  exists m, nth_error q (length q - 2) = Some m /\ In n (children m) /\ In m (preorder c).
Proof.
  induction 1 as [c | c child q n I R IH]; simpl; intros L; [lia |].
  destruct R as [child | child grandchild q n I' R'].
  - exists c. simpl. split; [reflexivity |]. split; [exact I |].
    apply preorder_self.
  - destruct (reaches_head _ _ _ R') as [q' ->].
    destruct IH as (m & E & Im & Ip); [simpl; lia |].
    exists m. split; [| split; [exact Im |]].
    + simpl in E |- *. rewrite Nat.sub_0_r in *. exact E.
    + eapply preorder_child; eassumption.
Qed.

(** What [_findPath] returns, when it returns a path, is [collected]
    followed by the nodes from [c] down to a node whose value is equal to the
    one looked for. *)
Lemma _findPath_reaches (expected : T) (c : TreeNode T) :
  forall collected p,
    snd (_findPath expected c collected) = Ok (Some p) ->
    exists q n, p = collected ++ q /\ reaches c q n /\
                snd (_findPath_matches expected n) = Ok true.
Proof.
  induction c as [v cs IH] using TreeNode_Forall_ind. intros collected p.
  rewrite _findPath_unfold. intros E. apply bind_returns in E as [hit [Eh E]].
  destruct hit.
  - injection E as <-. exists [mkTreeNode v cs], (mkTreeNode v cs).
    split; [reflexivity |]. split; [constructor | exact Eh].
  - simpl children in E. clear Eh.
    assert (G : exists cc q n, In cc cs /\ p = (collected ++ [mkTreeNode v cs]) ++ q /\
                               reaches cc q n /\
                               snd (_findPath_matches expected n) = Ok true).
    { revert E. generalize (collected ++ [mkTreeNode v cs]). intros acc.
      induction IH as [| cc rest IHcc _ IHrest]; simpl; [discriminate |].
      intros E. apply bind_returns in E as [r [Er E]].
      destruct r as [p' |]; simpl in E.
      - injection E as ->. destruct (IHcc _ _ Er) as (q & n & -> & R & Em).
        exists cc, q, n. auto.
      - destruct (IHrest E) as (cc' & q & n & I & -> & R & Em).
        exists cc', q, n. auto. }
    destruct G as (cc & q & n & I & -> & R & Em).
    exists (mkTreeNode v cs :: q), n. rewrite <- app_assoc. split; [reflexivity |].
    split; [| exact Em]. apply reaches_child with (child := cc); assumption.
Qed.

Lemma last_of_map {A B} (f : A -> B) (l : list A) :
  last_of (map f l) = option_map f (last_of l).
Proof.
  unfold last_of. rewrite <- map_rev. destruct (rev l); reflexivity.
Qed.

(** The path [_findPath] returns ends in the first node in pre-order whose
    value is equal to the one looked for, and there is none when it returns
    [null]. *)
Lemma _findPath_last_preorder (expected : T) (c : TreeNode T) :
  forall collected,
    (r <- _findPath expected c collected ;;
     ret (match r with Some p => last_of p | None => None end)) =
    findM (_findPath_matches expected) (preorder c).
Proof.
  induction c as [v cs IH] using TreeNode_Forall_ind. intros collected.
  rewrite _findPath_unfold. simpl preorder. simpl findM.
  unfold _findPath_matches at 1. simpl value. rewrite bind_assoc. apply bind_ext.
  intros [|]; [rewrite bind_ret_l, last_of_app_last; reflexivity |].
  simpl children. generalize (collected ++ [mkTreeNode v cs]). intros acc.
  induction IH as [| cc rest IHcc _ IHrest]; simpl.
  - rewrite bind_ret_l. reflexivity.
  - rewrite findM_app, <- (IHcc acc), !bind_assoc.
    apply bind_ext_returns. intros [p |] Er; simpl.
    + rewrite !bind_ret_l.
      destruct (_findPath_reaches _ _ _ _ Er) as (q & n & -> & R & _).
      destruct (reaches_head _ _ _ R) as [q' ->].
      assert (L : exists x, last_of (acc ++ cc :: q') = Some x).
      { unfold last_of. rewrite rev_app_distr. simpl.
        destruct (rev q' ++ [cc]) eqn:E; [| simpl; eauto].
        apply app_eq_nil in E as [_ E]. discriminate. }
      destruct L as [x ->]. reflexivity.
    + rewrite bind_ret_l. apply IHrest.
Qed.

(** X1: a path that [pathFromRoot] returns lists the values on the way from
    the root down to a node whose value is equal to the one looked for: it
    starts with the root value, every node on it is a child of the one
    before, and it ends with the value of that node. *)
Theorem pathFromRoot_leads_to_equal_value (t : Tree T) (v : T) (p : list T) :
  snd (pathFromRoot t v) = Ok p ->
  exists q n,
    p = map value q /\ reaches (_root t) q n /\
    hd_error p = Some (root t) /\ last_of p = Some (value n) /\
    snd (_equalValues (toAny v) (toAny (value n))) = Ok true.
Proof.
  unfold pathFromRoot. intros E.
  apply bind_returns in E as [r [Er E]]. apply bind_returns in E as [q [Eq E]].
  destruct r as [q0 |]; [| discriminate]. unfold field, id in Eq.
  injection Eq as <-. injection E as <-.
  destruct (_findPath_reaches _ _ _ _ Er) as (q' & n & -> & R & Em). simpl in *.
  exists q', n. split; [reflexivity |]. split; [exact R |].
  split; [| split; [| exact Em]].
  - destruct (reaches_head _ _ _ R) as [q'' ->]. reflexivity.
  - rewrite last_of_map, (reaches_last _ _ _ R). reflexivity.
Qed.

Lemma snd_pathFromRoot (t : Tree T) (v : T) :
  snd (pathFromRoot t v) =
  match snd (_findPath v (_root t) []) with
  | Ok (Some q) => Ok (map value q)
  | Ok None => Throw TypeError
  | Throw e => Throw e
  end.
Proof.
  unfold pathFromRoot. rewrite snd_bind.
  destruct (snd (_findPath v (_root t) [])) as [[q |] | e]; reflexivity.
Qed.

Lemma snd_parent (t : Tree T) (v : T) :
  snd (parent t v) =
  match snd (pathFromRoot t v) with
  | Ok p => Ok (if Nat.ltb 1 (length p) then nth_error p (length p - 2) else None)
  | Throw e => Throw e
  end.
Proof. unfold parent. rewrite snd_bind. reflexivity. Qed.

(** X2: the path that [pathFromRoot] returns ends with the value of the first
    node in pre-order whose value is equal to the one looked for; it returns
    whenever the search for that node finds one, and it throws a [TypeError]
    when the search goes through the whole tree in vain. *)
Theorem pathFromRoot_ends_at_first_match (t : Tree T) (v : T) :
  (forall p, snd (pathFromRoot t v) = Ok p ->
     exists n, snd (findM (_findPath_matches v) (preorder (_root t))) = Ok (Some n) /\
               last_of p = Some (value n)) /\
  (forall n, snd (findM (_findPath_matches v) (preorder (_root t))) = Ok (Some n) ->
     exists p, snd (pathFromRoot t v) = Ok p /\ last_of p = Some (value n)) /\
  (snd (findM (_findPath_matches v) (preorder (_root t))) = Ok None ->
   snd (pathFromRoot t v) = Throw TypeError).
Proof.
  pose proof (_findPath_last_preorder v (_root t) []) as L.
  apply (f_equal snd) in L. rewrite snd_bind in L.
  rewrite snd_pathFromRoot.
  destruct (snd (_findPath v (_root t) [])) as [[q |] | e] eqn:E;
    simpl in L; rewrite <- L.
  - destruct (_findPath_reaches _ _ _ _ E) as (q' & n & Eq & R & _).
    simpl in Eq. subst q'. rewrite (reaches_last _ _ _ R). split; [| split].
    + intros p [= <-]. exists n. split; [reflexivity |].
      rewrite last_of_map, (reaches_last _ _ _ R). reflexivity.
    + intros n' [= <-]. exists (map value q). split; [reflexivity |].
      rewrite last_of_map, (reaches_last _ _ _ R). reflexivity.
    + discriminate.
  - split; [| split]; [discriminate | discriminate | reflexivity].
  - split; [| split]; discriminate.
Qed.

Lemma reaches_single (c x n : TreeNode T) : reaches c [x] n -> x = c /\ n = c.
Proof.
  intros R. inversion R as [| ? child q ? I R']; subst; [tauto |].
  destruct (reaches_head _ _ _ R') as [q' E]. discriminate.
Qed.

(** X3: [parent] returns [null] exactly for the values that are equal to the
    root value; for every other value it returns a value or throws. *)
Theorem parent_null_iff_equal_to_root (t : Tree T) (v : T) :
  snd (parent t v) = Ok None <->
  snd (_equalValues (toAny v) (toAny (root t))) = Ok true.
Proof.
  rewrite snd_parent. split.
  - destruct (snd (pathFromRoot t v)) as [p | e] eqn:E; [| discriminate].
    destruct (pathFromRoot_leads_to_equal_value _ _ _ E) as (q & n & -> & R & _ & _ & Em).
    rewrite length_map. destruct q as [| x [| y q]].
    + destruct (reaches_head _ _ _ R) as [q' Eq]. discriminate.
    + apply reaches_single in R as [_ ->]. intros _. exact Em.
    + simpl. rewrite Nat.sub_0_r. intros N. injection N as N.
      apply nth_error_None in N. simpl in N. rewrite ?length_map in N. lia.
  - intros Em. rewrite snd_pathFromRoot, _findPath_unfold, snd_bind.
    unfold root in Em. rewrite Em. reflexivity.
Qed.

(** X4: a value that [parent] returns is the value of a node of the tree
    that has a child whose value is equal to the one looked for. *)
Theorem parent_has_equal_child (t : Tree T) (v pv : T) :
  snd (parent t v) = Ok (Some pv) ->
  exists m c,
    In m (preorder (_root t)) /\ value m = pv /\ In c (children m) /\
    snd (_equalValues (toAny v) (toAny (value c))) = Ok true.
Proof.
  rewrite snd_parent.
  destruct (snd (pathFromRoot t v)) as [p | e] eqn:E; [| discriminate].
  destruct (pathFromRoot_leads_to_equal_value _ _ _ E) as (q & n & -> & R & _ & _ & Em).
  rewrite length_map. destruct (Nat.ltb 1 (length q)) eqn:L; [| discriminate].
  apply Nat.ltb_lt in L. intros N. injection N as N.
  destruct (reaches_before_last _ _ _ R L) as (m & Enth & Ic & Ip).
  rewrite (map_nth_error value _ _ Enth) in N. injection N as <-.
  exists m, n. auto.
Qed.

End Paths.

(** X1 on the URL tree of [/a/b] and another object equal to its [a]. *)
Lemma pathFromRoot_leads_to_equal_value_witness :
  exists q n,
    [root url_a_b; mkUrlSegment 1 "a" (Some []) None] = map value q /\
    reaches (_root url_a_b) q n /\
    hd_error [root url_a_b; mkUrlSegment 1 "a" (Some []) None] = Some (root url_a_b) /\
    last_of [root url_a_b; mkUrlSegment 1 "a" (Some []) None] = Some (value n) /\
    snd (_equalValues (toAny other_a) (toAny (value n))) = Ok true.
Proof.
  apply (pathFromRoot_leads_to_equal_value url_a_b other_a). reflexivity.
Defined.

(** X4 on the URL tree of [/a/b] and another object equal to its [b]. *)
Lemma parent_has_equal_child_witness :
  exists m c,
    In m (preorder (_root url_a_b)) /\
    value m = mkUrlSegment 1 "a" (Some []) None /\
    In c (children m) /\
    snd (_equalValues (toAny (mkUrlSegment 9 "b" (Some []) None)) (toAny (value c))) = Ok true.
Proof.
  apply (parent_has_equal_child url_a_b (mkUrlSegment 9 "b" (Some []) None)).
  reflexivity.
Defined.

(* ================================================================== *)
(** ** Value equality as an equivalence *)
(* ================================================================== *)

Lemma same_pairs_sym (m1 m2 : StringMap) : same_pairs m1 m2 -> same_pairs m2 m1.
Proof. intros S k v. symmetry. apply S. Qed.

Lemma same_pairs_trans (m1 m2 m3 : StringMap) :
  same_pairs m1 m2 -> same_pairs m2 m3 -> same_pairs m1 m3.
Proof. intros S1 S2 k v. rewrite (S1 k v). apply S2. Qed.

Lemma StringMap_eqb_sym (m1 m2 : StringMap) :
  StringMap_wf m1 -> StringMap_wf m2 -> StringMap_eqb m1 m2 = StringMap_eqb m2 m1.
Proof.
  intros W1 W2. apply Bool.eq_iff_eq_true.
  rewrite (StringMap_eqb_same_pairs _ _ W1 W2), (StringMap_eqb_same_pairs _ _ W2 W1).
  split; apply same_pairs_sym.
Qed.

Lemma StringMap_eqb_trans (m1 m2 m3 : StringMap) :
  StringMap_wf m1 -> StringMap_wf m2 -> StringMap_wf m3 ->
  StringMap_eqb m1 m2 = true -> StringMap_eqb m2 m3 = true -> StringMap_eqb m1 m3 = true.
Proof.
  intros W1 W2 W3.
  rewrite (StringMap_eqb_same_pairs _ _ W1 W2), (StringMap_eqb_same_pairs _ _ W2 W3),
    (StringMap_eqb_same_pairs _ _ W1 W3).
  apply same_pairs_trans.
Qed.

Lemma string_opt_eqb_sym (a b : option string) : string_opt_eqb a b = string_opt_eqb b a.
Proof.
  apply Bool.eq_iff_eq_true. rewrite !string_opt_eqb_eq. split; congruence.
Qed.

Lemma nat_opt_eqb_sym (a b : option nat) : nat_opt_eqb a b = nat_opt_eqb b a.
Proof.
  apply Bool.eq_iff_eq_true. rewrite !nat_opt_eqb_eq. split; congruence.
Qed.

(** On values with their parameter maps [_equalValues] neither throws nor
    writes. *)
Lemma _equalValues_Value_eqb (a b : Value) :
  well_formed a -> well_formed b -> _equalValues a b = ret (Value_eqb a b).
Proof.
  destruct a as [r1 | u1 | x], b as [r2 | u2 | y]; simpl; try reflexivity.
  - intros (p1 & E1 & _) (p2 & E2 & _).
    rewrite (equalSegments_present _ _ _ _ E1 E2), E1, E2. reflexivity.
  - intros (p1 & E1 & _) (p2 & E2 & _).
    rewrite (equalUrlSegments_present _ _ _ _ E1 E2), E1, E2. reflexivity.
Qed.

Lemma Value_eqb_refl (a : Value) : well_formed a -> Value_eqb a a = true.
Proof.
  destruct a as [r | u | x]; simpl.
  - intros (p & -> & _).
    rewrite string_opt_eqb_refl, StringMap_eqb_refl, !andb_true_r.
    apply nat_opt_eqb_eq. reflexivity.
  - intros (p & -> & _).
    rewrite String.eqb_refl, string_opt_eqb_refl, StringMap_eqb_refl. reflexivity.
  - intros _. apply Nat.eqb_refl.
Qed.

Lemma Value_eqb_sym (a b : Value) :
  well_formed a -> well_formed b -> Value_eqb a b = Value_eqb b a.
Proof.
  destruct a as [r1 | u1 | x], b as [r2 | u2 | y]; simpl; try reflexivity.
  - intros (p1 & -> & W1) (p2 & -> & W2).
    rewrite nat_opt_eqb_sym, string_opt_eqb_sym, (StringMap_eqb_sym _ _ W1 W2).
    reflexivity.
  - intros (p1 & -> & W1) (p2 & -> & W2).
    rewrite String.eqb_sym, string_opt_eqb_sym, (StringMap_eqb_sym _ _ W1 W2).
    reflexivity.
  - intros _ _. apply Nat.eqb_sym.
Qed.

Lemma Value_eqb_trans (a b c : Value) :
  well_formed a -> well_formed b -> well_formed c ->
  Value_eqb a b = true -> Value_eqb b c = true -> Value_eqb a c = true.
Proof.
  destruct a as [r1 | u1 | x], b as [r2 | u2 | y], c as [r3 | u3 | z]; simpl;
    try discriminate; try (intros; discriminate).
  - intros (p1 & -> & W1) (p2 & -> & W2) (p3 & -> & W3).
    rewrite !andb_true_iff, !nat_opt_eqb_eq, !string_opt_eqb_eq.
    intros [[-> ->] S12] [[-> ->] S23]. repeat split.
    eapply StringMap_eqb_trans; [| exact W2 | | |]; eassumption.
  - intros (p1 & -> & W1) (p2 & -> & W2) (p3 & -> & W3).
    rewrite !andb_true_iff, !String.eqb_eq, !string_opt_eqb_eq.
    intros [[-> ->] S12] [[-> ->] S23]. repeat split.
    eapply StringMap_eqb_trans; [| exact W2 | | |]; eassumption.
  - intros _ _ _. rewrite !Nat.eqb_eq. congruence.
Qed.

(** X5: on URL segments that carry their parameter maps, [equalUrlSegments]
    is an equivalence: a segment is equal to itself, the result does not
    depend on the order of the two arguments, and two segments equal to a
    third are equal. *)
Theorem equalUrlSegments_equivalence (a b c : UrlSegment) :
  UrlSegment_wf a -> UrlSegment_wf b -> UrlSegment_wf c ->
  equalUrlSegments (Some a) (Some a) = ret true /\
  equalUrlSegments (Some a) (Some b) = equalUrlSegments (Some b) (Some a) /\
  (equalUrlSegments (Some a) (Some b) = ret true ->
   equalUrlSegments (Some b) (Some c) = ret true ->
   equalUrlSegments (Some a) (Some c) = ret true).
Proof.
  intros Wa Wb Wc.
  pose proof (fun x y => eq_refl :
                equalUrlSegments (Some x) (Some y)
                = _equalValues (VUrlSegment x) (VUrlSegment y)) as E.
  rewrite !E.
  rewrite !_equalValues_Value_eqb by assumption.
  rewrite (Value_eqb_refl (VUrlSegment a) Wa).
  rewrite (Value_eqb_sym (VUrlSegment a) (VUrlSegment b) Wa Wb).
  split; [reflexivity |]. split; [reflexivity |].
  intros E1 E2. apply ret_inj in E1, E2. f_equal.
  rewrite (Value_eqb_sym (VUrlSegment b) (VUrlSegment a) Wb Wa) in E1.
  exact (Value_eqb_trans (VUrlSegment a) (VUrlSegment b) (VUrlSegment c) Wa Wb Wc E1 E2).
Qed.

(** X6: on route segments that carry their parameter maps, [equalSegments]
    is an equivalence as well. *)
Theorem equalSegments_equivalence (a b c : RouteSegment) :
  RouteSegment_wf a -> RouteSegment_wf b -> RouteSegment_wf c ->
  equalSegments (Some a) (Some a) = ret true /\
  equalSegments (Some a) (Some b) = equalSegments (Some b) (Some a) /\
  (equalSegments (Some a) (Some b) = ret true ->
   equalSegments (Some b) (Some c) = ret true ->
   equalSegments (Some a) (Some c) = ret true).
Proof.
  intros Wa Wb Wc.
  pose proof (fun x y => eq_refl :
                equalSegments (Some x) (Some y)
                = _equalValues (VRouteSegment x) (VRouteSegment y)) as E.
  rewrite !E.
  rewrite !_equalValues_Value_eqb by assumption.
  rewrite (Value_eqb_refl (VRouteSegment a) Wa).
  rewrite (Value_eqb_sym (VRouteSegment a) (VRouteSegment b) Wa Wb).
  split; [reflexivity |]. split; [reflexivity |].
  intros E1 E2. apply ret_inj in E1, E2. f_equal.
  rewrite (Value_eqb_sym (VRouteSegment b) (VRouteSegment a) Wb Wa) in E1.
  exact (Value_eqb_trans (VRouteSegment a) (VRouteSegment b) (VRouteSegment c)
           Wa Wb Wc E1 E2).
Qed.

Lemma StringMap_wf_two (k1 v1 k2 v2 : string) :
  k1 <> k2 -> StringMap_wf [(k1, v1); (k2, v2)].
Proof.
  intros N. unfold StringMap_wf. simpl. repeat constructor; simpl; intuition.
Qed.

(** X5 on three segments that list the same two parameters in different
    orders. *)
Lemma equalUrlSegments_equivalence_witness :
  let a := mkUrlSegment 1 "a" (Some [("x", "1"); ("y", "2")]) None in
  let b := mkUrlSegment 2 "a" (Some [("y", "2"); ("x", "1")]) None in
  let c := mkUrlSegment 3 "a" (Some [("x", "1"); ("y", "2")]) None in
  equalUrlSegments (Some a) (Some a) = ret true /\
  equalUrlSegments (Some a) (Some b) = equalUrlSegments (Some b) (Some a) /\
  (equalUrlSegments (Some a) (Some b) = ret true ->
   equalUrlSegments (Some b) (Some c) = ret true ->
   equalUrlSegments (Some a) (Some c) = ret true).
Proof.
  apply (equalUrlSegments_equivalence
           (mkUrlSegment 1 "a" (Some [("x", "1"); ("y", "2")]) None)
           (mkUrlSegment 2 "a" (Some [("y", "2"); ("x", "1")]) None)
           (mkUrlSegment 3 "a" (Some [("x", "1"); ("y", "2")]) None)).
  - eexists. split; [reflexivity | apply StringMap_wf_two; discriminate].
  - eexists. split; [reflexivity | apply StringMap_wf_two; discriminate].
  - eexists. split; [reflexivity | apply StringMap_wf_two; discriminate].
Defined.

(** X6 on three route segments of the same type. *)
Lemma equalSegments_equivalence_witness :
  let a := mkRouteSegment 1 [] (Some [("id", "7"); ("tab", "x")]) None (Some 3) None in
  let b := mkRouteSegment 2 [] (Some [("tab", "x"); ("id", "7")]) None (Some 3) None in
  let c := mkRouteSegment 3 [] (Some [("id", "7"); ("tab", "x")]) None (Some 3) (Some 4) in
  equalSegments (Some a) (Some a) = ret true /\
  equalSegments (Some a) (Some b) = equalSegments (Some b) (Some a) /\
  (equalSegments (Some a) (Some b) = ret true ->
   equalSegments (Some b) (Some c) = ret true ->
   equalSegments (Some a) (Some c) = ret true).
Proof.
  apply (equalSegments_equivalence
           (mkRouteSegment 1 [] (Some [("id", "7"); ("tab", "x")]) None (Some 3) None)
           (mkRouteSegment 2 [] (Some [("tab", "x"); ("id", "7")]) None (Some 3) None)
           (mkRouteSegment 3 [] (Some [("id", "7"); ("tab", "x")]) None (Some 3) (Some 4))).
  - eexists. split; [reflexivity | apply StringMap_wf_two; discriminate].
  - eexists. split; [reflexivity | apply StringMap_wf_two; discriminate].
  - eexists. split; [reflexivity | apply StringMap_wf_two; discriminate].
Defined.

(* ================================================================== *)
(** ** Containment and embedding *)
(* ================================================================== *)

Section Embedding.
Context {T : Type} `{Any T}.

Lemma filterM_ret_inv {A} (p : A -> M bool) (l : list A) :
  forall r, filterM p l = ret r -> forall x, In x r -> In x l /\ p x = ret true.
Proof.
  induction l as [| y l IH]; simpl; intros r E x I.
  - apply ret_inj in E. subst r. destruct I.
  - apply bind_ret_inv in E as [keep [Ek E]].
    apply bind_ret_inv in E as [tl [Et E]]. apply ret_inj in E. subst r.
    destruct keep.
    + destruct I as [<- | I]; [auto |]. destruct (IH _ Et _ I). auto.
    + destruct (IH _ Et _ I). auto.
Qed.

(** When [_contains] says yes, the subtree can be laid into the tree. *)
Lemma _contains_embeddable (subtree : TreeNode T) :
  forall tree, _contains tree subtree = ret true -> embeddable tree subtree.
Proof.
  induction subtree as [sv scs IH] using TreeNode_Forall_ind. intros tree E.
  apply _contains_true_iff in E as [Ev Ec]. apply embeddable_node; [exact Ev |].
  simpl children in *. intros sc I. rewrite Forall_forall in IH.
  destruct (Ec sc I) as (s0 & others & Ef & Es).
  exists s0. split; [| apply IH; assumption].
  unfold _contains_candidates in Ef.
  apply (filterM_ret_inv _ _ _ Ef s0). left. reflexivity.
Qed.

Lemma embeddable_inv (tree subtree : TreeNode T) :
  embeddable tree subtree ->
  _equalValues (toAny (value tree)) (toAny (value subtree)) = ret true /\
  forall sc, In sc (children subtree) ->
    exists tc, In tc (children tree) /\ embeddable tc sc.
Proof. intros E. destruct E. auto. Qed.

(** In a tree whose values carry their parameter maps and where no node has
    two children with equal values, [_contains] finds every subtree that can
    be laid into it. *)
Lemma embeddable__contains (subtree : TreeNode T) :
  forall tree,
    Forall (fun n => well_formed (toAny (value n)) /\ distinct_children n) (preorder tree) ->
    Forall (fun n => well_formed (toAny (value n))) (preorder subtree) ->
    embeddable tree subtree -> _contains tree subtree = ret true.
Proof.
  induction subtree as [sv scs IH] using TreeNode_Forall_ind.
  intros tree Ht Hs E. apply embeddable_inv in E as [Ev Ec].
  apply _contains_true_iff. split; [exact Ev |]. simpl children in *.
  intros sn Isn. destruct (Ec sn Isn) as (tc & Itc & Etc).
  rewrite Forall_forall in IH, Ht, Hs.
  assert (Wsn : well_formed (toAny (value sn))).
  { apply Hs. simpl. right. apply in_flat_map. exists sn.
    split; [exact Isn | apply preorder_self]. }
  assert (Wc : forall c, In c (children tree) -> well_formed (toAny (value c))).
  { intros c Ic. apply Ht. eapply preorder_child; [exact Ic | apply preorder_self]. }
  destruct (Ht tree (preorder_self tree)) as [_ D].
  exists tc. apply in_split in Itc as (l1 & l2 & El).
  unfold distinct_children in D. rewrite El in D, Wc.
  apply ForallOrdPairs_middle in D as [D1 _].
  assert (Etc' := Etc). apply embeddable_inv in Etc' as [Evc _].
  rewrite (_equalValues_Value_eqb _ _ (Wc tc (in_elt _ _ _)) Wsn) in Evc.
  apply ret_inj in Evc.
  unfold _contains_candidates. rewrite El.
  rewrite (filterM_pure _ (fun c => Value_eqb (toAny (value c)) (toAny (value sn)))).
  2:{ intros c Ic. apply _equalValues_Value_eqb; [apply Wc; exact Ic | exact Wsn]. }
  rewrite filter_app. simpl. rewrite Evc.
  assert (N : filter (fun c => Value_eqb (toAny (value c)) (toAny (value sn))) l1 = []).
  { clear - D1 Evc Wc Wsn.
    induction l1 as [| y l1 IHl]; simpl; [reflexivity |].
    inversion D1 as [| ? ? [Ey _] D1']; subst.
    assert (Wy : well_formed (toAny (value y))) by (apply Wc; left; reflexivity).
    assert (Wtc : well_formed (toAny (value tc))) by (apply Wc; apply in_elt).
    rewrite (_equalValues_Value_eqb _ _ Wy Wtc) in Ey. apply ret_inj in Ey.
    destruct (Value_eqb (toAny (value y)) (toAny (value sn))) eqn:Eysn.
    - exfalso. rewrite (Value_eqb_sym _ _ Wtc Wsn) in Evc.
      rewrite (Value_eqb_trans _ _ _ Wy Wsn Wtc Eysn Evc) in Ey. discriminate.
    - apply IHl; [| exact D1'].
      intros c Ic. apply Wc. simpl in Ic |- *. tauto. }
  rewrite N. simpl. eexists. split; [reflexivity |].
  apply IH; [exact Isn | | | exact Etc].
  - apply Forall_forall. intros m Im. apply Ht.
    eapply preorder_child; [| exact Im]. rewrite El. apply in_elt.
  - apply Forall_forall. intros m Im. apply Hs. simpl. right.
    apply in_flat_map. eauto.
Qed.

End Embedding.

(** X7: [contains] gives no false positive: when it returns [true], the
    other tree can be laid into this one, root on root and every child on
    some child with an equal value. *)
Theorem contains_true_embeddable {T} `{Any T} (t tree : Tree T) :
  contains t tree = ret true -> embeddable (_root t) (_root tree).
Proof. unfold contains. apply _contains_embeddable. Qed.

(** X8: on a tree whose values carry their parameter maps and in which no
    node has two children with equal values, [contains] gives no false
    negative either: it returns [true] for every tree, of values with their
    parameter maps, that can be laid into it. *)
Theorem contains_embeddable_distinct_children {T} `{Any T} (t tree : Tree T) :
  Forall (fun n => well_formed (toAny (value n)) /\ distinct_children n)
         (preorder (_root t)) ->
  Forall (fun n => well_formed (toAny (value n))) (preorder (_root tree)) ->
  embeddable (_root t) (_root tree) ->
  contains t tree = ret true.
Proof. unfold contains. apply embeddable__contains. Qed.

Lemma StringMap_wf_nil : StringMap_wf [].
Proof. constructor. Qed.

(** X7 on the URL tree of [/a/11/b(c)] and the tree [url_a_11_c] of other
    objects. *)
Lemma contains_true_embeddable_witness :
  embeddable (_root url_a_11_b_c) (_root url_a_11_c).
Proof. apply (contains_true_embeddable url_a_11_b_c url_a_11_c). reflexivity. Defined.

(** X8 on the same two trees. *)
Lemma contains_embeddable_distinct_children_witness :
  contains url_a_11_b_c url_a_11_c = ret true.
Proof.
  apply (contains_embeddable_distinct_children url_a_11_b_c url_a_11_c).
  - unfold distinct_children, unequal_nodes, well_formed, UrlSegment_wf. simpl.
    repeat first [ reflexivity | apply StringMap_wf_nil
                 | eexists | constructor ].
  - unfold well_formed, UrlSegment_wf. simpl.
    repeat first [ reflexivity | apply StringMap_wf_nil
                 | eexists | constructor ].
  - apply _contains_embeddable. reflexivity.
Defined.

(* ================================================================== *)
(** ** [children] and [firstChild] *)
(* ================================================================== *)

Section Children.
Context {T : Type} `{Any T}.

Lemma findM_ret_None_inv {A} (p : A -> M bool) (l : list A) :
  findM p l = ret None -> Forall (fun x => p x = ret false) l.
Proof.
  induction l as [| x l IH]; simpl; intros E; [constructor |].
  apply bind_ret_inv in E as [hit [Eh E]].
  destruct hit; [apply ret_inj in E; discriminate |].
  constructor; [exact Eh | apply IH; exact E].
Qed.

Lemma findM_returns_Some {A} (p : A -> M bool) (l : list A) (x : A) :
  snd (findM p l) = Ok (Some x) -> In x l /\ snd (p x) = Ok true.
Proof.
  induction l as [| y l IH]; simpl; [discriminate |].
  intros E. apply bind_returns in E as [hit [Eh E]]. destruct hit.
  - injection E as <-. auto.
  - destruct (IH E). auto.
Qed.

Lemma findM_ext {A} (p q : A -> M bool) (l : list A) :
  (forall x, p x = q x) -> findM p l = findM q l.
Proof.
  intros E. induction l as [| x l IH]; simpl; [reflexivity |].
  rewrite E. apply bind_ext. intros [|]; [reflexivity | exact IH].
Qed.

(** X9: [children] returns [null] exactly when no node of the tree passes
    the test of [_findNode]; when it returns a list, the list holds the
    values of the children of a node of the tree that passes the test. *)
Theorem children_null_iff_no_match (t : Tree T) (v : T) :
  (Tree_children t v = ret None <->
   Forall (fun n => _findNode_matches v n = ret false) (preorder (_root t))) /\
  (forall cs, snd (Tree_children t v) = Ok (Some cs) ->
     exists n, In n (preorder (_root t)) /\
               snd (_findNode_matches v n) = Ok true /\
               cs = map value (children n)).
Proof.
  unfold Tree_children. rewrite _findNode_preorder. split; [split |].
  - intros E. apply bind_ret_inv in E as [n [En E]].
    destruct n; [apply ret_inj in E; discriminate |].
    apply findM_ret_None_inv. exact En.
  - intros A. rewrite (findM_none _ _ A), bind_ret_l. reflexivity.
  - intros cs E. apply bind_returns in E as [n [En E]].
    destruct n as [n |]; [| discriminate]. injection E as <-.
    destruct (findM_returns_Some _ _ _ En). eauto.
Qed.

(** X10: [firstChild] returns the first of the values that [children]
    returns, and [null] when [children] returns [null] or an empty list;
    it throws exactly when [children] does. *)
Theorem firstChild_first_of_children (t : Tree T) (v : T) :
  firstChild t v =
  (cs <- Tree_children t v ;;
   ret (match cs with
        | Some (c0 :: _) => Some c0
        | _ => None
        end)).
Proof.
  unfold firstChild, Tree_children. rewrite bind_assoc. apply bind_ext.
  intros [n |]; rewrite bind_ret_l; [| reflexivity].
  destruct (children n); reflexivity.
Qed.

End Children.

(** On a tree of plain values nothing throws in [_findPath]. *)
Lemma _findPath_plain_returns (v : nat) (c : TreeNode nat) :
  forall collected e, snd (_findPath v c collected) <> Throw e.
Proof.
  induction c as [x cs IH] using TreeNode_Forall_ind. intros collected e.
  rewrite _findPath_unfold, snd_bind. simpl.
  destruct (Nat.eqb v x); [discriminate |].
  generalize (collected ++ [mkTreeNode x cs]). intros acc.
  induction IH as [| cc rest IHcc _ IHrest]; simpl; [discriminate |].
  rewrite snd_bind. specialize (IHcc acc).
  destruct (snd (_findPath v cc acc)) as [r | e']; [| intros _; exact (IHcc e' eq_refl)].
  destruct r; simpl; [discriminate | exact IHrest].
Qed.

(** X11: on a tree of plain values the lookups mean the same node:
    [children] returns [null] exactly when [pathFromRoot] throws, and when
    [pathFromRoot] returns a path, the path runs from the root down to a node
    of the tree, and [children] and [firstChild] return the values of the
    children of that very node and the first of them. *)
Theorem plain_children_at_path_end (t : Tree nat) (v : nat) :
  (snd (Tree_children t v) = Ok None <-> snd (pathFromRoot t v) = Throw TypeError) /\
  (forall p, snd (pathFromRoot t v) = Ok p ->
     exists q n,
       p = map value q /\ reaches (_root t) q n /\
       snd (_findNode v (_root t)) = Ok (Some n) /\
       snd (Tree_children t v) = Ok (Some (map value (children n))) /\
       snd (firstChild t v) = Ok (hd_error (map value (children n)))).
Proof.
  assert (E : _findNode v (_root t) =
              (r <- _findPath v (_root t) [] ;;
               ret (match r with Some p => last_of p | None => None end))).
  { rewrite _findNode_preorder, _findPath_last_preorder. apply findM_ext.
    intros c. unfold _findNode_matches, _findPath_matches. simpl.
    rewrite bind_ret_l. reflexivity. }
  apply (f_equal snd) in E. rewrite snd_bind in E.
  unfold Tree_children, firstChild. rewrite !snd_bind, snd_pathFromRoot, E.
  pose proof (_findPath_plain_returns v (_root t) []) as NT.
  destruct (snd (_findPath v (_root t) [])) as [r | e] eqn:Er;
    [| exfalso; exact (NT e eq_refl)].
  destruct r as [q |]; simpl.
  - destruct (_findPath_reaches _ _ _ _ Er) as (q' & n & Eq & R & _).
    simpl in Eq. subst q'. rewrite (reaches_last _ _ _ R). simpl. split.
    + split; discriminate.
    + intros p [= <-]. exists q, n.
      split; [reflexivity |]. split; [exact R |]. split; [reflexivity |].
      split; [reflexivity |]. destruct (children n); reflexivity.
  - split; [split; reflexivity | discriminate].
Qed.

(* ================================================================== *)
(** ** Looking up the values of the tree itself *)
(* ================================================================== *)

Section NodeValues.
Context {T : Type} `{Any T}.

Lemma findM_pure_found {A} (p : A -> M bool) (q : A -> bool) (l : list A) :
  (forall x, In x l -> p x = ret (q x)) ->
  (exists x, In x l /\ q x = true) ->
  exists y, findM p l = ret (Some y).
Proof.
  induction l as [| x l IH]; intros P [y [I Q]]; [destruct I |].
  simpl. rewrite (P x (or_introl eq_refl)), bind_ret_l.
  destruct (q x) eqn:E; [eauto |].
  apply IH.
  - intros z Iz. apply P. right. exact Iz.
  - destruct I as [-> | I]; [congruence | eauto].
Qed.

Lemma _findPath_found (v : T) (c y : TreeNode T) (collected : list (TreeNode T)) :
  snd (findM (_findPath_matches v) (preorder c)) = Ok (Some y) ->
  exists q, snd (_findPath v c collected) = Ok (Some q).
Proof.
  rewrite <- (_findPath_last_preorder v c collected), snd_bind.
  destruct (snd (_findPath v c collected)) as [[q |] | e]; simpl;
    [eauto | discriminate | discriminate].
Qed.

Lemma strict_equals_refl (v : Value) : strict_equals v v = true.
Proof. destruct v; simpl; apply Nat.eqb_refl. Qed.

Lemma _findNode_matches_test (v : T) (c : TreeNode T) :
  testable_by_findNode (toAny v) -> testable_by_findNode (toAny (value c)) ->
  _findNode_matches v c = ret (_findNode_test (toAny v) (toAny (value c))).
Proof.
  unfold _findNode_matches, _findNode_test.
  destruct (toAny v) as [r1 | u1 | x] eqn:Ev; simpl;
    try (intros _ _; rewrite bind_ret_l; reflexivity).
  destruct (toAny (value c)) as [r2 | u2 | y] eqn:Ec; simpl;
    try (intros _ _; rewrite bind_ret_l; reflexivity).
  intros (p1 & E1 & _) (p2 & E2 & _).
  rewrite (equalSegments_present _ _ _ _ E1 E2), bind_ret_l, E1, E2.
  destruct (_ && _ && _); reflexivity.
Qed.

(** X12: in a tree whose values carry their parameter maps, the value of
    every node has a path: [pathFromRoot] and [parent] return for it and do
    not throw. *)
Theorem pathFromRoot_of_node_value_returns (t : Tree T) (n : TreeNode T) :
  Forall (fun m => well_formed (toAny (value m))) (preorder (_root t)) ->
  In n (preorder (_root t)) ->
  (exists p, snd (pathFromRoot t (value n)) = Ok p) /\
  (exists r, snd (parent t (value n)) = Ok r).
Proof.
  intros W I. rewrite Forall_forall in W.
  destruct (findM_pure_found (_findPath_matches (value n))
              (fun c => Value_eqb (toAny (value n)) (toAny (value c)))
              (preorder (_root t))) as [y Ey].
  - intros x Ix. apply _equalValues_Value_eqb; auto.
  - exists n. split; [exact I | apply Value_eqb_refl; auto].
  - apply (f_equal snd) in Ey. simpl in Ey.
    destruct (_findPath_found _ _ _ [] Ey) as [q Eq].
    rewrite snd_parent, snd_pathFromRoot, Eq. eauto.
Qed.

(** X13: the value of every node is found by [children] and [firstChild]:
    [children] returns a list for it, not [null], and neither throws; for
    trees of route segments this needs the parameter maps, for URL segments
    and other values nothing. *)
Theorem children_of_node_value_not_null (t : Tree T) (n : TreeNode T) :
  Forall (fun m => testable_by_findNode (toAny (value m))) (preorder (_root t)) ->
  In n (preorder (_root t)) ->
  (exists cs, Tree_children t (value n) = ret (Some cs)) /\
  (exists c, firstChild t (value n) = ret c).
Proof.
  intros W I. rewrite Forall_forall in W.
  destruct (findM_pure_found (_findNode_matches (value n))
              (fun c => _findNode_test (toAny (value n)) (toAny (value c)))
              (preorder (_root t))) as [y Ey].
  - intros x Ix. apply _findNode_matches_test; auto.
  - exists n. split; [exact I |]. unfold _findNode_test.
    assert (R := strict_equals_refl (toAny (value n))).
    destruct (toAny (value n)); rewrite R, ?orb_true_r; reflexivity.
  - unfold Tree_children, firstChild.
    rewrite _findNode_preorder, Ey, !bind_ret_l. eauto.
Qed.

Lemma embeddable_trans (t3 : TreeNode T) :
  forall t1 t2,
    Forall (fun n => well_formed (toAny (value n))) (preorder t1) ->
    Forall (fun n => well_formed (toAny (value n))) (preorder t2) ->
    Forall (fun n => well_formed (toAny (value n))) (preorder t3) ->
    embeddable t1 t2 -> embeddable t2 t3 -> embeddable t1 t3.
Proof.
  induction t3 as [v3 cs3 IH] using TreeNode_Forall_ind.
  intros t1 t2 W1 W2 W3 E12 E23.
  apply embeddable_inv in E12 as [V12 C12]. apply embeddable_inv in E23 as [V23 C23].
  rewrite Forall_forall in IH, W1, W2, W3. simpl value in *. simpl children in *.
  pose proof (W1 _ (preorder_self t1)) as Wv1.
  pose proof (W2 _ (preorder_self t2)) as Wv2.
  pose proof (W3 _ (preorder_self (mkTreeNode v3 cs3))) as Wv3. simpl value in Wv3.
  apply embeddable_node.
  - rewrite (_equalValues_Value_eqb _ _ Wv1 Wv2) in V12.
    rewrite (_equalValues_Value_eqb _ _ Wv2 Wv3) in V23.
    apply ret_inj in V12, V23. simpl value.
    rewrite (_equalValues_Value_eqb _ _ Wv1 Wv3).
    rewrite (Value_eqb_trans _ _ _ Wv1 Wv2 Wv3 V12 V23). reflexivity.
  - simpl children. intros sc3 I3.
    destruct (C23 sc3 I3) as (tc2 & I2 & E2).
    destruct (C12 tc2 I2) as (tc1 & I1 & E1).
    exists tc1. split; [exact I1 |].
    apply (IH sc3 I3 tc1 tc2); try assumption; apply Forall_forall; intros m Im.
    + apply W1. eapply preorder_child; eassumption.
    + apply W2. eapply preorder_child; eassumption.
    + apply W3. eapply (preorder_child (mkTreeNode v3 cs3)); eassumption.
Qed.

(** X14: containment composes.  In a tree whose values carry their
    parameter maps and in which no node has two children with equal values,
    whatever is contained in a tree that it contains is contained in it. *)
Theorem contains_transitive (t1 t2 t3 : Tree T) :
  Forall (fun n => well_formed (toAny (value n)) /\ distinct_children n)
         (preorder (_root t1)) ->
  Forall (fun n => well_formed (toAny (value n))) (preorder (_root t2)) ->
  Forall (fun n => well_formed (toAny (value n))) (preorder (_root t3)) ->
  contains t1 t2 = ret true -> contains t2 t3 = ret true ->
  contains t1 t3 = ret true.
Proof.
  unfold contains. intros W1 W2 W3 C12 C23.
  apply embeddable__contains; [exact W1 | exact W3 |].
  apply (embeddable_trans _ _ (_root t2)); try assumption.
  - eapply Forall_impl; [| exact W1]. intros n [W _]. exact W.
  - apply _contains_embeddable. exact C12.
  - apply _contains_embeddable. exact C23.
Qed.

End NodeValues.

(** X12 on the auxiliary segment [c] of the URL tree of [/a/11/b(c)]. *)
Lemma pathFromRoot_of_node_value_returns_witness :
  (exists p, snd (pathFromRoot url_a_11_b_c
                    (value (leaf (mkUrlSegment 4 "c" (Some []) (Some "aux"))))) = Ok p) /\
  (exists r, snd (parent url_a_11_b_c
                    (value (leaf (mkUrlSegment 4 "c" (Some []) (Some "aux"))))) = Ok r).
Proof.
  apply (pathFromRoot_of_node_value_returns url_a_11_b_c
           (leaf (mkUrlSegment 4 "c" (Some []) (Some "aux")))).
  - unfold well_formed, UrlSegment_wf. simpl.
    repeat first [ reflexivity | apply StringMap_wf_nil | eexists | constructor ].
  - simpl. tauto.
Defined.

(** X13 on the root of the route tree [s(p.root)] of the tests. *)
Lemma children_of_node_value_not_null_witness :
  (exists cs, Tree_children (s 6 (root url_a_11_b_c))
                (value (_root (s 6 (root url_a_11_b_c)))) = ret (Some cs)) /\
  (exists c, firstChild (s 6 (root url_a_11_b_c))
               (value (_root (s 6 (root url_a_11_b_c)))) = ret c).
Proof.
  apply (children_of_node_value_not_null (s 6 (root url_a_11_b_c))
           (_root (s 6 (root url_a_11_b_c)))).
  - unfold testable_by_findNode, RouteSegment_wf. simpl.
    repeat first [ reflexivity | apply StringMap_wf_nil | eexists | constructor ].
  - simpl. tauto.
Defined.

(** X14 on the URL trees of [/a/11/b(c)], [url_a_11_c] and [/a]. *)
Lemma contains_transitive_witness : contains url_a_11_b_c url_a_alone = ret true.
Proof.
  apply (contains_transitive url_a_11_b_c url_a_11_c url_a_alone).
  - unfold distinct_children, unequal_nodes, well_formed, UrlSegment_wf. simpl.
    repeat first [ reflexivity | apply StringMap_wf_nil | eexists | constructor ].
  - unfold well_formed, UrlSegment_wf. simpl.
    repeat first [ reflexivity | apply StringMap_wf_nil | eexists | constructor ].
  - unfold well_formed, UrlSegment_wf. simpl.
    repeat first [ reflexivity | apply StringMap_wf_nil | eexists | constructor ].
  - reflexivity.
  - reflexivity.
Defined.
